(** * randomMating.py: random mating of diploid genomes

    A shallow embedding of [src/randomMating.py] and the properties of its
    sampler, genes, genomes and species.

    Python values are modelled as follows.
    - an [int] is a [Z];
    - a tuple is a [list]; a [Gene] is the tuple of its alleles, a [Genome]
      the tuple of its genes;
    - a [dict] is an association list in insertion order, read and written
      at the first entry of a key;
    - a [float] is an IEEE 754 double: a finite one is a whole number of
      units of [2^-1074], and every operation rounds to the nearest
      double of 53 bits, ties to even;
    - a raised exception is the [Raise] outcome of a [result];
    - the state of the [random] module is threaded explicitly. *)

From Stdlib Require Import ZArith QArith List Lia Bool Arith.
From Stdlib Require Import Floats.SpecFloat.
From Stdlib Require Import Sorting.Sorted Sorting.Permutation.
Import ListNotations.

Local Open Scope Z_scope.

(** ** Exceptions and results *)

Inductive exn : Type :=
| AssertionError
| IndexError
| ValueError
| ZeroDivisionError
| OverflowError.

Inductive result (A : Type) : Type :=
| Ok (a : A)
| Raise (e : exn).

Arguments Ok {A} a.
Arguments Raise {A} e.

Definition rbind {A B} (r : result A) (k : A -> result B) : result B :=
  match r with
  | Ok a => k a
  | Raise e => Raise e
  end.

Declare Scope result_scope.
Delimit Scope result_scope with result.
Notation "'let?' x ':=' c 'in' k" := (rbind c (fun x => k))
  (at level 10, x pattern, c at level 100, k at level 200) : result_scope.

Local Open Scope result_scope.

(** [[f(x) for x in l]] with a body that may raise: the first exception
    stops the comprehension. *)
Fixpoint rmap {A B} (f : A -> result B) (l : list A) : result (list B) :=
  match l with
  | [] => Ok []
  | a :: l' =>
      let? b := f a in
      let? bs := rmap f l' in
      Ok (b :: bs)
  end.

Definition failed {A} (r : result A) : Prop :=
  exists e, r = Raise e.

(** ** Decidable equality of keys *)

Class EqDec (K : Type) : Type :=
  eq_dec : forall a b : K, {a = b} + {a <> b}.

#[export] Instance Z_EqDec : EqDec Z := Z.eq_dec.
#[export] Instance list_EqDec {K} `{EqDec K} : EqDec (list K) :=
  list_eq_dec eq_dec.

(** ** Sequences *)

(** [seq[i]] for a Python integer index: a negative index counts from the
    end, an index out of range raises [IndexError]. *)
Definition py_index {A} (seq : list A) (i : Z) : result A :=
  let n := Z.of_nat (length seq) in
  let j := if i <? 0 then i + n else i in
  if (j <? 0) || (n <=? j) then Raise IndexError
  else match nth_error seq (Z.to_nat j) with
       | Some a => Ok a
       | None => Raise IndexError
       end.

(** [seq.count(k)] *)
Definition py_count {K} `{EqDec K} (k : K) (seq : list K) : Z :=
  Z.of_nat (count_occ eq_dec seq k).

(** [sum(l)] over integers *)
Definition py_sum (l : list Z) : Z := fold_left Z.add l 0.

(** [sorted(l)] over integers; on integers every sorting algorithm returns
    the same list, here it is built by insertion. *)
Fixpoint insert_sorted (a : Z) (l : list Z) : list Z :=
  match l with
  | [] => [a]
  | b :: l' => if a <=? b then a :: l else b :: insert_sorted a l'
  end.

Fixpoint sorted (l : list Z) : list Z :=
  match l with
  | [] => []
  | a :: l' => insert_sorted a (sorted l')
  end.

(** ** Floats

    Every finite double is a whole multiple of [2^-1074], the smallest
    positive double, so a finite float is kept as its number of such
    units: [1.0] is [Finite (2^1074)].  The sign of zero is not kept: it
    changes no comparison and no result of this program. *)

Definition unit_scale : Z := 2 ^ 1074.

Inductive float : Type :=
| Finite (units : Z)
| Infinity (negative : bool)
| NaN.

(** The value of a finite float, as a fraction. *)
Definition float_value (x : float) : Q :=
  match x with
  | Finite u => u # (2 ^ 1074)
  | _ => 0
  end.

(** The nearest integer to [num / den], ties to the even one. *)
Definition round_half_even (num den : Z) : Z :=
  let m := num / den in
  let r := num mod den in
  if 2 * r <? den then m
  else if den <? 2 * r then m + 1
  else if Z.even m then m else m + 1.

(** The exponent [j] of the grid [2^j] units on which [P / q] units is
    rounded: the one that leaves 53 bits, [2^52 <= P / (q * 2^j) < 2^53],
    and [0], the grid of the subnormal doubles, below that. *)
Definition grid_exponent (P q : Z) : Z :=
  let j0 := Z.max 0 (Z.log2 P - Z.log2 q - 53) in
  if P / (q * 2 ^ j0) <? 2 ^ 53 then j0 else j0 + 1.

(** [P / q] units, not negative, rounded to 53 bits. *)
Definition round_units (P q : Z) : Z :=
  let j := grid_exponent P q in
  round_half_even P (q * 2 ^ j) * 2 ^ j.

Definition round_signed (P q : Z) : Z :=
  if P <? 0 then - round_units (- P) q else round_units P q.

(** A rounded result of [2^1024] or more is an infinity. *)
Definition to_float (u : Z) : float :=
  if 2 ^ 1024 * unit_scale <=? Z.abs u then Infinity (u <? 0) else Finite u.

(** The integers that [float(n)] converts: from [2^1024 - 2^970] on the
    nearest double would be [2^1024] and the conversion raises
    [OverflowError]. *)
Definition in_float_range (n : Z) : Prop := Z.abs n < 2 ^ 1024 - 2 ^ 970.

Definition int_units (n : Z) : Z := round_signed (n * unit_scale) 1.

(** [float(n)], also the conversion of an integer operand of [*] and [/]
    whose other operand is a float. *)
Definition float_of_int (n : Z) : result float :=
  if Z.abs n <? 2 ^ 1024 - 2 ^ 970 then Ok (Finite (int_units n))
  else Raise OverflowError.

(** [a * b] on floats *)
Definition fmul (a b : float) : float :=
  match a, b with
  | Finite x, Finite y => to_float (round_signed (x * y) unit_scale)
  | NaN, _ | _, NaN => NaN
  | Infinity s, Finite y | Finite y, Infinity s =>
      if y =? 0 then NaN else Infinity (xorb s (y <? 0))
  | Infinity s, Infinity t => Infinity (xorb s t)
  end.

(** [a / b] on floats, for a divisor that is not zero *)
Definition fdiv_value (a b : float) : float :=
  match a, b with
  | Finite x, Finite y =>
      to_float (round_signed (if y <? 0 then - (x * unit_scale)
                              else x * unit_scale) (Z.abs y))
  | NaN, _ | _, NaN => NaN
  | Infinity s, Finite y => Infinity (xorb s (y <? 0))
  | Finite _, Infinity _ => Finite 0
  | Infinity _, Infinity _ => NaN
  end.

Definition float_is_zero (x : float) : bool :=
  match x with
  | Finite u => u =? 0
  | _ => false
  end.

(** [a / b] on floats: [ZeroDivisionError] when the divisor is zero. *)
Definition fdiv (a b : float) : result float :=
  if float_is_zero b then Raise ZeroDivisionError else Ok (fdiv_value a b).

(** [cnt / total] for an integer [cnt] and a float [total]: the integer
    is converted first. *)
Definition py_truediv (cnt : Z) (total : float) : result float :=
  let? a := float_of_int cnt in
  fdiv a total.

(** [x < n] for a float [x] and an integer [n]: Python compares the two
    exactly. *)
Definition float_lt_int (x : float) (n : Z) : bool :=
  match x with
  | Finite u => u <? n * unit_scale
  | Infinity negative => negative
  | NaN => false
  end.

(** The doubles that are not negative: at most 53 bits of a whole
    number of units. *)
Definition dyadic53 (u : Z) : Prop :=
  exists m j, u = m * 2 ^ j /\ 0 <= m < 2 ^ 53 /\ 0 <= j.

(** What [random.random()] returns: a double in [[0.0, 1.0)]. *)
Definition unit_draw (r : float) : Prop :=
  exists u, r = Finite u /\ dyadic53 u /\ 0 <= u < unit_scale.

(** A double of the standard library's specification of IEEE 754 as a
    float of this file. *)
Definition of_spec (x : spec_float) : float :=
  match x with
  | S754_zero _ => Finite 0
  | S754_infinity s => Infinity s
  | S754_nan => NaN
  | S754_finite s m e =>
      Finite ((if s then Z.neg m else Z.pos m) * 2 ^ (e + 1074))
  end.

(** ** Dictionaries *)

Section Dict.
Context {K V : Type} `{EqDec K}.

Definition dict : Type := list (K * V).

Fixpoint dict_get (d : dict) (k : K) : option V :=
  match d with
  | [] => None
  | (k', v) :: d' => if eq_dec k' k then Some v else dict_get d' k
  end.

(** [d[k] = v]: an existing key keeps its place, a new key goes last. *)
Fixpoint dict_set (d : dict) (k : K) (v : V) : dict :=
  match d with
  | [] => [(k, v)]
  | (k', v') :: d' =>
      if eq_dec k' k then (k', v) :: d' else (k', v') :: dict_set d' k v
  end.

Definition dict_keys (d : dict) : list K := map fst d.
Definition dict_values (d : dict) : list V := map snd d.
Definition dict_items (d : dict) : list (K * V) := d.

(** [d[k]] on a [defaultdict]: a missing key is first inserted with the
    default value. *)
Definition dd_getitem (default : V) (d : dict) (k : K) : V * dict :=
  match dict_get d k with
  | Some v => (v, d)
  | None => (default, dict_set d k default)
  end.

(** [d1 == d2] on dictionaries: the same keys with the same values, in
    any order. *)
Definition dict_equal (d1 d2 : dict) : Prop :=
  length d1 = length d2 /\ forall k, dict_get d1 k = dict_get d2 k.
End Dict.

Arguments dict K V : clear implicits.

(** [d[k] += n] on a [defaultdict(int)] *)
Definition dd_iadd {K} `{EqDec K} (d : dict K Z) (k : K) (n : Z) : dict K Z :=
  let '(v, d') := dd_getitem 0 d k in dict_set d' k (v + n).

(** [d[k] -= n] on a [defaultdict(int)] *)
Definition dd_isub {K} `{EqDec K} (d : dict K Z) (k : K) (n : Z) : dict K Z :=
  let '(v, d') := dd_getitem 0 d k in dict_set d' k (v - n).

(** ** bisect.bisect

    The standard library's [bisect] ([bisect_right]):
<<
    lo, hi = 0, len(a)
    while lo < hi:
        mid = (lo + hi) // 2
        if x < a[mid]: hi = mid
        else: lo = mid + 1
    return lo
>>
    The loop is unrolled on a counter that starts at [len(a)], which the
    width [hi - lo] never exceeds. *)

Fixpoint bisect_loop (n : nat) (a : list Z) (x : float) (lo hi : nat) : nat :=
  match n with
  | O => lo
  | S n' =>
      if (lo <? hi)%nat then
        let mid := ((lo + hi) / 2)%nat in
        if float_lt_int x (nth mid a 0) then bisect_loop n' a x lo mid
        else bisect_loop n' a x (mid + 1)%nat hi
      else lo
  end.

Definition bisect (a : list Z) (x : float) : nat :=
  bisect_loop (length a) a x 0%nat (length a).

(** ** Gene *)

Definition Gene : Type := list Z.

(** [Gene.__new__(cls, *alleles)].  [assert len(alleles), 2] tests the
    truth of [len(alleles)] and carries [2] as its message; alleles are
    integers by their type. *)
Definition Gene_new (alleles : list Z) : result Gene :=
  if (length alleles =? 0)%nat then Raise AssertionError
  else Ok (sorted alleles).

(** [{ k: self.count(k) for k in self }] *)
Definition Gene_allele_count (self : Gene) : dict Z Z :=
  fold_left (fun d k => dict_set d k (py_count k self)) self [].

(** ** Genome *)

Definition Genome : Type := list Gene.

(** [Genome.__new__(cls, *genotypes)]: [[Gene(g[0], g[1]) for g in genotypes]] *)
Definition Genome_new (genotypes : list (list Z)) : result Genome :=
  rmap (fun g =>
          let? a0 := py_index g 0 in
          let? a1 := py_index g 1 in
          Gene_new [a0; a1]) genotypes.

Definition Genome_allele_count (self : Genome) : list (dict Z Z) :=
  map Gene_allele_count self.

(** The genomes that [Genome_new] builds: two alleles at every locus. *)
Definition wf_Genome (g : Genome) : Prop :=
  Forall (fun gene => length gene = 2%nat) g.

(** ** Species *)

Definition Species : Type := dict Genome Z.

(** The keys a caller may put in the mapping given to [Species]. *)
Inductive pyobj : Type :=
| OGenome (g : Genome)
| OTuple (t : list (list Z))
| OInt (z : Z).

Definition as_Genome (o : pyobj) : option Genome :=
  match o with
  | OGenome g => Some g
  | _ => None
  end.

Definition isinstance_Genome (o : pyobj) : bool :=
  match as_Genome o with Some _ => true | None => false end.

(** [Species.__init__(self, genome_dict)]: the assertion on the keys, then
    the entries are copied in order. *)
Definition Species_init (genome_dict : list (pyobj * Z)) : result Species :=
  if forallb (fun kv => isinstance_Genome (fst kv)) genome_dict then
    Ok (flat_map (fun kv => match as_Genome (fst kv) with
                            | Some g => [(g, snd kv)]
                            | None => []
                            end) genome_dict)
  else Raise AssertionError.

Definition Species_population (self : Species) : Z :=
  py_sum (dict_values self).

(** [total = float(sum(self.values()))], then
    [{ g:cnt/total for g,cnt in self.items() }] *)
Definition Species_genome_frequencies (self : Species)
  : result (dict Genome float) :=
  let? total := float_of_int (py_sum (dict_values self)) in
  rmap (fun '(g, cnt) => let? f := py_truediv cnt total in Ok (g, f))
       (dict_items self).

(** The body of the loop [for g in alleles_by_genome] of [allele_counts]:
    [allele_sum[allele] += alleles_by_genome[g][allele] * self[g]] for
    every allele of [g].  The keys looked up are keys of the mappings
    read, so that no lookup fails and reading [self[g]] inserts nothing. *)
Definition allele_sum_step (self : Species)
  (alleles_by_genome : dict Genome (dict Z Z))
  (allele_sum : dict Z Z) (g : Genome) : dict Z Z :=
  let alleles :=
    match dict_get alleles_by_genome g with Some a => a | None => [] end in
  fold_left
    (fun acc allele =>
       let n := match dict_get alleles allele with Some n => n | None => 0 end in
       let c := fst (dd_getitem 0 self g) in
       dd_iadd acc allele (n * c))
    (dict_keys alleles) allele_sum.

(** [allele_counts]: [alleles_by_genome] is
    [{g: g.allele_count()[locus] for g in self}]. *)
Definition Species_allele_counts (self : Species) (locus : Z)
  : result (dict Z Z) :=
  let? entries :=
    rmap (fun g => let? a := py_index (Genome_allele_count g) locus in
                   Ok (g, a)) (dict_keys self) in
  let alleles_by_genome :=
    fold_left (fun d ga => dict_set d (fst ga) (snd ga)) entries [] in
  Ok (fold_left (allele_sum_step self alleles_by_genome)
                (dict_keys alleles_by_genome) []).

Definition Species_allele_frequencies (self : Species) (locus : Z)
  : result (dict Z float) :=
  let? counts := Species_allele_counts self locus in
  let? total := float_of_int (py_sum (dict_values counts)) in
  let? counts' := Species_allele_counts self locus in
  rmap (fun '(al, cnt) => let? f := py_truediv cnt total in Ok (al, f))
       (dict_items counts').

(** ** Reading the counts

    [d[k]] read on a [defaultdict(int)]: the count of a key, zero for a
    key that is missing. *)
Definition count_of {K} `{EqDec K} (d : dict K Z) (k : K) : Z :=
  match dict_get d k with Some v => v | None => 0 end.

(** The copies of the allele [a] that the individuals of the species
    carry at the locus [locus]. *)
Definition allele_copies (self : Species) (locus : nat) (a : Z) : Z :=
  py_sum (map (fun gc => py_count a (nth locus (fst gc) []) * snd gc) self).

(** What [alleles_by_genome] holds in [allele_counts] when the locus
    [locus] is in range for every genome. *)
Definition alleles_at (self : Species) (locus : nat)
  : dict Genome (dict Z Z) :=
  map (fun g => (g, Gene_allele_count (nth locus g []))) (dict_keys self).


(** The doubles of the test case: [1./3] and [0.5]. *)
Definition third : float := Finite (6004799503160661 * 2 ^ 1020).
Definition half : float := Finite (2 ^ 1073).

(** ** The population of the test case

    [TestRM.setUp]: [Genome(Gene(1,1))], [Genome(Gene(2,2))] and the
    species with one individual of each; [genome12] is [Genome((1, 2))]. *)

Definition genome1 : Genome := [[1; 1]].
Definition genome2 : Genome := [[2; 2]].
Definition genome12 : Genome := [[1; 2]].
Definition sp0 : Species := [(genome1, 1); (genome2, 1)].

(** ** Computations that draw random numbers

    A computation reads and updates a state and returns a value or raises;
    the state survives an exception. *)

Definition M (S A : Type) : Type := S -> result A * S.

Definition ret {S A} (a : A) : M S A := fun st => (Ok a, st).

Definition raise {S A} (e : exn) : M S A := fun st => (Raise e, st).

Definition bind {S A B} (m : M S A) (k : A -> M S B) : M S B :=
  fun st =>
    match m st with
    | (Ok a, st') => k a st'
    | (Raise e, st') => (Raise e, st')
    end.

Definition lift {S A} (r : result A) : M S A := fun st => (r, st).

Declare Scope comp_scope.
Delimit Scope comp_scope with comp.
Notation "x <- c ;; k" := (bind c (fun x => k))
  (at level 61, c at next level, right associativity) : comp_scope.

(** [[f(x) for x in l]] where [f] draws random numbers *)
Fixpoint mmap {S A B} (f : A -> M S B) (l : list A) : M S (list B) :=
  match l with
  | [] => ret []
  | a :: l' =>
      (b <- f a ;;
       bs <- mmap f l' ;;
       ret (b :: bs))%comp
  end.

(** ** Finite distributions

    The outcomes of a computation whose only random draws are slot
    choices, each with its probability: [random.choice] is uniform over
    the slots of its sequence and successive choices are independent. *)

Definition dist (A : Type) : Type := list (A * Q).

Definition dret {A} (a : A) : dist A := [(a, 1%Q)].

Definition dbind {A B} (d : dist (result A)) (k : A -> dist (result B))
  : dist (result B) :=
  flat_map (fun ap =>
              match fst ap with
              | Ok a => map (fun bq => (fst bq, (snd ap * snd bq)%Q)) (k a)
              | Raise e => [(Raise e, snd ap)]
              end) d.

Definition choice_dist {A} (seq : list A) : dist (result A) :=
  if (length seq =? 0)%nat then dret (Raise IndexError)
  else map (fun a => (Ok a, 1 # Pos.of_nat (length seq))) seq.

(** [Gene.mate] read as a distribution. *)
Definition Gene_mate_dist (self other : Gene) : dist (result Gene) :=
  dbind (choice_dist self) (fun a =>
  dbind (choice_dist other) (fun b =>
  dret (Gene_new [a; b]))).

(** A generator to run the model on: the state is a counter, the n-th
    call of [random.random()] returns the double [(n mod 8) / 8] and the
    n-th slot choice among [k] slots returns [n mod k]. *)
Definition counter_random (n : nat) : float * nat :=
  (Finite (Z.of_nat (n mod 8) * 2 ^ 1071), S n).

Definition counter_randbelow (k n : nat) : nat * nat :=
  ((n mod k)%nat, S n).

Section Random.

(** The state of the [random] module and its two primitives:
    [random.random()] and the index that [random.choice] draws below
    the length of its sequence. *)
Variable rng : Type.
Variable random_random : rng -> float * rng.
Variable random_randbelow : nat -> rng -> nat * rng.

Local Open Scope comp_scope.

Definition random : M rng float :=
  fun st => let (r, st') := random_random st in (Ok r, st').

(** [random.choice(seq)]: [IndexError] on an empty sequence, otherwise
    [seq[randbelow(len(seq))]]. *)
Definition random_choice {A} (seq : list A) : M rng A :=
  if (length seq =? 0)%nat then raise IndexError
  else fun st =>
         let (i, st') := random_randbelow (length seq) st in
         (py_index seq (Z.of_nat i), st').

(** [values, weights = zip( *choices )]: the pairs are split into the
    tuple of values and the tuple of weights; unpacking nothing raises
    [ValueError]. *)
Definition unzip_choices {A} (choices : list (A * Z))
  : result (list A * list Z) :=
  match choices with
  | [] => Raise ValueError
  | _ => Ok (map fst choices, map snd choices)
  end.

(** The loop [for w in weights: total += w; cum_weights.append(total)]. *)
Definition accumulate (weights : list Z) : Z * list Z :=
  fold_left (fun '(total, cum_weights) w =>
               (total + w, cum_weights ++ [total + w]))
            weights (0, []).

Definition weighted_choice {A} (choices : list (A * Z)) : M rng A :=
  vw <- lift (unzip_choices choices) ;;
  let '(values, weights) := vw in
  let '(total, cum_weights) := accumulate weights in
  r <- random ;;
  total' <- lift (float_of_int total) ;;
  let x := fmul r total' in
  let i := bisect cum_weights x in
  lift (py_index values (Z.of_nat i)).

(** [Gene.mate]: [Gene(random.choice(self), random.choice(other))] *)
Definition Gene_mate (self other : Gene) : M rng Gene :=
  a <- random_choice self ;;
  b <- random_choice other ;;
  lift (Gene_new [a; b]).

(** [Genome.mate]: [other] is a [Genome] by its type; the second
    assertion compares the lengths. *)
Definition Genome_mate (self other : Genome) : M rng Genome :=
  if negb (length self =? length other)%nat then raise AssertionError
  else
    genes <- mmap (fun '(s, o) => Gene_mate s o) (combine self other) ;;
    lift (Genome_new genes).

(** [Species.mate] works on two mappings: the live one, [self], which
    the caller keeps, and the working copy [s]. *)
Record world : Type := World { live : Species; gen : rng }.

Definition zoom {A} (m : M rng A) : M world A :=
  fun w => let (r, st') := m (gen w) in (r, World (live w) st').

Definition update_live (f : Species -> Species) : M world unit :=
  fun w => (Ok tt, World (f (live w)) (gen w)).

(** One turn of the [while] loop; the working copy goes in and out. *)
Definition mate_step (s : Species) : M world Species :=
  g1 <- zoom (weighted_choice (dict_items s)) ;;
  let s1 := dd_isub s g1 1 in
  g2 <- zoom (weighted_choice (dict_items s1)) ;;
  let s2 := dd_isub s1 g2 1 in
  offspring <- zoom (Genome_mate g1 g2) ;;
  _ <- update_live (fun self => dd_iadd self offspring 1) ;;
  ret s2.

(** [while s.population() >= 2: ...], at most [fuel] turns; [None] when
    the turns are used up with the test still true. *)
Fixpoint mate_loop (fuel : nat) (s : Species) (w : world)
  : option (result unit * world) :=
  if 2 <=? Species_population s then
    match fuel with
    | O => None
    | S fuel' =>
        match mate_step s w with
        | (Ok s', w') => mate_loop fuel' s' w'
        | (Raise e, w') => Some (Raise e, w')
        end
    end
  else Some (Ok tt, w).

(** [Species.mate]: [s = Species(self)] copies the live mapping. *)
Definition Species_mate (fuel : nat) (w : world)
  : option (result unit * world) :=
  match Species_init (map (fun kv => (OGenome (fst kv), snd kv)) (live w)) with
  | Ok s => mate_loop fuel s w
  | Raise e => Some (Raise e, w)
  end.

(** [for i in range(generations): sp0.mate()], the loop of the driver at
    the end of the file; an exception leaves the loop. *)
Fixpoint mate_generations (fuel generations : nat) (w : world)
  : option (result unit * world) :=
  match generations with
  | O => Some (Ok tt, w)
  | S n =>
      match Species_mate fuel w with
      | Some (Ok _, w') => mate_generations fuel n w'
      | other => other
      end
  end.

(** The size of a population after one generation. *)
Definition grow (N : Z) : Z := N + N / 2.

(** A genome with the same allele twice at every locus. *)
Definition homozygous (g : Genome) : Prop :=
  Forall (fun gene => exists a, gene = [a; a]) g.

(** The cumulative weight at position [i], in iteration order: what
    [cum_weights[i]] holds after the loop of [weighted_choice]. *)
Definition cum_at (weights : list Z) (i : nat) : Z :=
  py_sum (firstn (S i) weights).

(** [child] holds, locus by locus and in order, the gene that
    [Gene_mate] returns for the genes of [self] and [other] at that
    locus, each locus drawing after the one before it. *)
Inductive loci_mated : Genome -> Genome -> rng -> Genome -> rng -> Prop :=
| loci_mated_nil st : loci_mated [] [] st [] st
| loci_mated_cons s o ss os st g st1 gs st2 :
    Gene_mate s o st = (Ok g, st1) ->
    loci_mated ss os st1 gs st2 ->
    loci_mated (s :: ss) (o :: os) st (g :: gs) st2.

(** The genomes of a mating pool: well formed, [L] loci each. *)
Definition pool_ok (L : nat) (s : Species) : Prop :=
  Forall (fun g => wf_Genome g /\ length g = L) (dict_keys s).

(** A gene as [Gene(a, b)] builds it. *)
Definition canonical_pair (g : Gene) : Prop :=
  exists a b, g = sorted [a; b].

Definition nondecreasing (a : list Z) : Prop :=
  forall i j, (i <= j < length a)%nat -> nth i a 0 <= nth j a 0.

(** ** Sorting *)

Lemma insert_sorted_perm a l : Permutation (a :: l) (insert_sorted a l).
Proof.
  induction l as [|b l IH]; simpl.
  - apply Permutation_refl.
  - destruct (a <=? b).
    + apply Permutation_refl.
    + eapply perm_trans; [apply perm_swap|]. now apply perm_skip.
Qed.

Lemma sorted_perm l : Permutation l (sorted l).
Proof.
  induction l as [|a l IH]; simpl.
  - apply perm_nil.
  - eapply perm_trans; [|apply insert_sorted_perm]. now apply perm_skip.
Qed.

Lemma insert_sorted_Sorted a l :
  Sorted Z.le l -> Sorted Z.le (insert_sorted a l).
Proof.
  induction l as [|b l IH]; simpl; intros Hs.
  - repeat constructor.
  - destruct (Z.leb_spec a b) as [Hab|Hab].
    + constructor; [assumption|]. constructor. assumption.
    + inversion Hs as [|? ? Hl Hhd]; subst.
      constructor; [now apply IH|].
      destruct l as [|c l]; simpl.
      * constructor. lia.
      * destruct (Z.leb_spec a c); constructor; try lia.
        now inversion Hhd.
Qed.

Lemma sorted_Sorted l : Sorted Z.le (sorted l).
Proof.
  induction l as [|a l IH]; simpl.
  - constructor.
  - now apply insert_sorted_Sorted.
Qed.

Lemma sorted_length l : length (sorted l) = length l.
Proof. symmetry. apply Permutation_length, sorted_perm. Qed.

Lemma sorted_pair x y : sorted [x; y] = [Z.min x y; Z.max x y].
Proof.
  simpl. destruct (Z.leb_spec x y).
  - now rewrite Z.min_l, Z.max_r by lia.
  - now rewrite Z.min_r, Z.max_l by lia.
Qed.

Lemma Gene_new_pair x y : Gene_new [x; y] = Ok [Z.min x y; Z.max x y].
Proof. unfold Gene_new. simpl length. simpl Nat.eqb. cbv iota. now rewrite sorted_pair. Qed.

(** ** Gene construction *)

(** C5: [Gene(x, y)] and [Gene(y, x)] are the same value, the pair in
    ascending order; whatever is computed from the value alone, its hash
    in particular, is therefore the same for both. *)
Theorem Gene_canonical (x y : Z) :
  Gene_new [x; y] = Gene_new [y; x]
  /\ Gene_new [x; y] = Ok [Z.min x y; Z.max x y]
  /\ forall (H : Type) (hash : result Gene -> H),
       hash (Gene_new [x; y]) = hash (Gene_new [y; x]).
Proof.
  assert (E : Gene_new [x; y] = Gene_new [y; x]).
  { rewrite !Gene_new_pair. now rewrite Z.min_comm, Z.max_comm. }
  split; [exact E|]. split; [apply Gene_new_pair|].
  intros H hash. now rewrite E.
Qed.

(** C10: the arity of [Gene] is not enforced.  For every non-empty
    sequence of integers, of any length, construction succeeds and
    returns all the alleles in ascending order; with no allele at all
    the assertion fails. *)
Theorem Gene_new_any_arity (alleles : list Z) :
  alleles <> [] ->
  exists g,
    Gene_new alleles = Ok g
    /\ g = sorted alleles
    /\ Sorted Z.le g
    /\ Permutation alleles g
    /\ length g = length alleles
    /\ Gene_new [] = Raise AssertionError.
Proof.
  intros Hne. exists (sorted alleles).
  split.
  - unfold Gene_new. destruct alleles; [contradiction|reflexivity].
  - repeat split;
      auto using sorted_Sorted, sorted_perm, sorted_length.
Qed.

(** ** Species construction *)

Lemma Species_init_Ok_iff d :
  (exists sp, Species_init d = Ok sp)
  <-> Forall (fun kv => as_Genome (fst kv) <> None) d.
Proof.
  unfold Species_init.
  destruct (forallb _ d) eqn:E.
  - split; [intros _|intros _; eauto].
    rewrite forallb_forall in E. apply Forall_forall.
    intros kv Hin. specialize (E kv Hin). unfold isinstance_Genome in E.
    destruct (as_Genome (fst kv)); congruence.
  - split; [intros [sp Hsp]; discriminate|intros HF].
    exfalso. assert (forallb (fun kv => isinstance_Genome (fst kv)) d = true).
    { apply forallb_forall. intros kv Hin.
      rewrite Forall_forall in HF. specialize (HF kv Hin).
      unfold isinstance_Genome. destruct (as_Genome (fst kv)); congruence. }
    congruence.
Qed.

Lemma Species_init_entries d sp :
  Species_init d = Ok sp ->
  map (fun kv => (OGenome (fst kv), snd kv)) sp = d.
Proof.
  unfold Species_init.
  destruct (forallb _ d) eqn:E; [|discriminate].
  intros [= <-]. induction d as [|[k c] d IH]; [reflexivity|].
  simpl in E. apply andb_true_iff in E as [Ek Ed].
  simpl. destruct k; simpl in *; try discriminate.
  now rewrite IH.
Qed.

Lemma Species_init_copy (sp : Species) :
  Species_init (map (fun kv => (OGenome (fst kv), snd kv)) sp) = Ok sp.
Proof.
  unfold Species_init.
  assert (E : forallb (fun kv : pyobj * Z => isinstance_Genome (fst kv))
                (map (fun kv => (OGenome (fst kv), snd kv)) sp) = true).
  { apply forallb_forall. intros kv Hin. apply in_map_iff in Hin.
    destruct Hin as [[g c] [<- _]]. reflexivity. }
  rewrite E. f_equal.
  induction sp as [|[g c] sp IH]; [reflexivity|].
  simpl. f_equal. apply IH.
  simpl in E. exact E.
Qed.

(** C8, as the code has it: the only check of [Species] is the
    assertion that every key is a [Genome].  Construction fails exactly
    when some key is not one; otherwise it succeeds and keeps every
    entry as given, whatever the counts and the numbers of loci. *)
Theorem Species_init_checks_keys_only (genome_dict : list (pyobj * Z)) :
  (Species_init genome_dict = Raise AssertionError
   <-> exists k c, In (k, c) genome_dict /\ as_Genome k = None)
  /\ ((exists sp, Species_init genome_dict = Ok sp)
      <-> forall k c, In (k, c) genome_dict -> exists g, k = OGenome g)
  /\ (forall sp, Species_init genome_dict = Ok sp ->
        map (fun kv => (OGenome (fst kv), snd kv)) sp = genome_dict).
Proof.
  split; [|split].
  - split.
    + intros Hf.
      destruct (Exists_dec (fun kv : pyobj * Z => as_Genome (fst kv) = None)
                  genome_dict) as [Hex|Hnex].
      { intros [k c]. simpl. destruct (as_Genome k); [right|left]; congruence. }
      * apply Exists_exists in Hex as [[k c] [Hin Hk]]. eauto.
      * assert (HF : Forall (fun kv : pyobj * Z => as_Genome (fst kv) <> None)
                       genome_dict).
        { apply Forall_forall. intros kv Hin Hk. apply Hnex.
          apply Exists_exists. eauto. }
        apply Species_init_Ok_iff in HF as [sp Hsp]. congruence.
    + intros (k & c & Hin & Hk). unfold Species_init.
      destruct (forallb _ genome_dict) eqn:E; [|reflexivity].
      rewrite forallb_forall in E. specialize (E _ Hin).
      unfold isinstance_Genome in E. simpl in E. rewrite Hk in E. discriminate.
  - rewrite Species_init_Ok_iff, Forall_forall. split.
    + intros HF k c Hin. specialize (HF _ Hin). simpl in HF.
      destruct k; simpl in HF; try congruence. eauto.
    + intros HF [k c] Hin. destruct (HF _ _ Hin) as [g ->]. simpl. congruence.
  - apply Species_init_entries.
Qed.


(** ** Sums *)

Lemma fold_left_add l a : fold_left Z.add l a = a + py_sum l.
Proof.
  unfold py_sum. revert a.
  induction l as [|b l IH]; intros a; simpl; [lia|].
  rewrite IH, (IH b). lia.
Qed.

Lemma py_sum_cons a l : py_sum (a :: l) = a + py_sum l.
Proof. unfold py_sum at 1. simpl. apply fold_left_add. Qed.

Lemma py_sum_app l1 l2 : py_sum (l1 ++ l2) = py_sum l1 + py_sum l2.
Proof.
  induction l1 as [|a l1 IH]; simpl; [reflexivity|].
  rewrite !py_sum_cons, IH. lia.
Qed.

Lemma py_sum_nonneg l : Forall (fun w => 0 <= w) l -> 0 <= py_sum l.
Proof.
  induction 1 as [|a l Ha _ IH]; [reflexivity|].
  rewrite py_sum_cons. lia.
Qed.

Lemma py_sum_zero l : Forall (fun w => w = 0) l -> py_sum l = 0.
Proof.
  induction 1 as [|a l Ha _ IH]; [reflexivity|].
  rewrite py_sum_cons. lia.
Qed.

(** ** Rounding *)

Lemma round_half_even_spec num den :
  0 < den ->
  let m := round_half_even num den in
  num / den <= m <= num / den + 1
  /\ 2 * Z.abs (num - m * den) <= den.
Proof.
  intros Hden. unfold round_half_even.
  pose proof (Z.div_mod num den ltac:(lia)) as Hdm.
  pose proof (Z.mod_pos_bound num den Hden) as Hr.
  set (f := num / den) in *. set (r := num mod den) in *.
  destruct (Z.ltb_spec (2 * r) den); [split; [lia|]|].
  - replace (num - f * den) with r by lia. lia.
  - destruct (Z.ltb_spec den (2 * r)); [split; [lia|]|].
    + replace (num - (f + 1) * den) with (r - den) by lia. lia.
    + destruct (Z.even f); (split; [lia|]).
      * replace (num - f * den) with r by lia. lia.
      * replace (num - (f + 1) * den) with (r - den) by lia. lia.
Qed.

Lemma round_half_even_nearest num den n :
  0 < den ->
  Z.abs (num - round_half_even num den * den) <= Z.abs (num - n * den).
Proof.
  intros Hden.
  destruct (round_half_even_spec num den Hden) as [_ H].
  set (m := round_half_even num den) in *.
  destruct (Z.eq_dec n m) as [->|Hne]; [lia|].
  assert (Hd : den <= Z.abs ((n - m) * den)).
  { rewrite Z.abs_mul. rewrite (Z.abs_eq den) by lia.
    assert (1 <= Z.abs (n - m)) by lia. nia. }
  replace (num - n * den) with ((num - m * den) - (n - m) * den) by ring.
  lia.
Qed.

Lemma grid_exponent_spec P q :
  0 < P -> 0 < q ->
  let j := grid_exponent P q in
  0 <= j
  /\ P < 2 ^ 53 * (q * 2 ^ j)
  /\ (0 < j -> 2 ^ 52 * (q * 2 ^ j) <= P).
Proof.
  intros HP Hq. unfold grid_exponent.
  destruct (Z.log2_spec P HP) as [HP1 HP2].
  destruct (Z.log2_spec q Hq) as [Hq1 Hq2].
  pose proof (Z.log2_nonneg P) as HlP. pose proof (Z.log2_nonneg q) as Hlq.
  set (lp := Z.log2 P) in *. set (lq := Z.log2 q) in *.
  set (j0 := Z.max 0 (lp - lq - 53)).
  assert (Hj0 : 0 <= j0) by lia.
  assert (Hpj : 0 < 2 ^ j0) by (apply Z.pow_pos_nonneg; lia).
  assert (Hden : 0 < q * 2 ^ j0) by nia.
  rewrite Z.pow_succ_r in HP2, Hq2 by assumption.
  (* P < 2^54 * den0 *)
  assert (Hup : P < 2 ^ 54 * (q * 2 ^ j0)
                /\ (lp - lq - 53 < 0 -> P < 2 ^ 53 * (q * 2 ^ j0))
                /\ (0 < j0 -> 2 ^ 52 * (q * 2 ^ j0) < P)).
  { destruct (Z.lt_ge_cases (lp - lq - 53) 0) as [Hneg|Hpos].
    - assert (E : j0 = 0) by lia. rewrite E. simpl (2 ^ 0).
      assert (Hle : 2 ^ lp <= 2 ^ 52 * 2 ^ lq).
      { rewrite <- Z.pow_add_r by lia. apply Z.pow_le_mono_r; lia. }
      change (2 ^ 54) with (4 * 2 ^ 52). change (2 ^ 53) with (2 * 2 ^ 52).
      split; [nia|]. split; [intros _; nia|lia].
    - assert (E : j0 = lp - lq - 53) by lia.
      assert (Hlp : 2 ^ lp = 2 ^ 53 * 2 ^ lq * 2 ^ j0).
      { rewrite <- !Z.pow_add_r by lia. f_equal. lia. }
      assert (Hlqp : 0 < 2 ^ lq) by (apply Z.pow_pos_nonneg; lia).
      change (2 ^ 54) with (2 * 2 ^ 53). change (2 ^ 53) with (2 * 2 ^ 52) in *.
      split; [nia|]. split; [lia|intros _; nia]. }
  destruct Hup as (Hup & Hsmall & Hlow).
  destruct (Z.ltb_spec (P / (q * 2 ^ j0)) (2 ^ 53)) as [Hs|Hs].
  - split; [assumption|]. split.
    + pose proof (Z.mul_succ_div_gt P (q * 2 ^ j0) Hden). nia.
    + intros Hj. specialize (Hlow Hj). lia.
  - assert (Hge : 2 ^ 53 * (q * 2 ^ j0) <= P).
    { pose proof (Z.mul_div_le P (q * 2 ^ j0) Hden). nia. }
    rewrite Z.pow_add_r by lia. change (2 ^ 1) with 2.
    change (2 ^ 54) with (2 * 2 ^ 53) in Hup. change (2 ^ 53) with (2 * 2 ^ 52) in *.
    split; [lia|]. split; [nia|intros _; nia].
Qed.

Lemma round_units_0 q : 0 < q -> round_units 0 q = 0.
Proof.
  intros Hq. unfold round_units, grid_exponent.
  pose proof (Z.log2_nonneg q).
  change (Z.log2 0) with 0. rewrite Z.max_l by lia.
  change (2 ^ 0) with 1. rewrite Z.mul_1_r.
  rewrite Z.div_0_l by lia. change (0 <? 2 ^ 53) with true. cbv iota.
  unfold round_half_even. change (2 ^ 0) with 1. rewrite Z.mul_1_r.
  rewrite Z.div_0_l, Z.mod_0_l by lia.
  destruct (Z.ltb_spec (2 * 0) q); [reflexivity|lia].
Qed.

Lemma round_units_nearest P q mg jg :
  0 <= P -> 0 < q -> 0 <= mg < 2 ^ 53 -> 0 <= jg ->
  Z.abs (P - round_units P q * q) <= Z.abs (P - mg * 2 ^ jg * q).
Proof.
  intros HP Hq Hmg Hjg.
  destruct (Z.eq_dec P 0) as [->|HP0].
  { rewrite round_units_0 by assumption. lia. }
  destruct (grid_exponent_spec P q ltac:(lia) Hq) as (Hj & Hup & Hlow).
  unfold round_units. set (j := grid_exponent P q) in *.
  assert (Hpj : 0 < 2 ^ j) by (apply Z.pow_pos_nonneg; lia).
  set (den := q * 2 ^ j) in *.
  assert (Hden : 0 < den) by (unfold den; nia).
  replace (round_half_even P den * 2 ^ j * q)
    with (round_half_even P den * den) by (unfold den; ring).
  destruct (Z.le_gt_cases j jg) as [Hle|Hgt].
  - replace (mg * 2 ^ jg * q) with (mg * 2 ^ (jg - j) * den).
    + apply round_half_even_nearest. assumption.
    + unfold den. replace jg with ((jg - j) + j) at 2 by lia.
      rewrite Z.pow_add_r by lia. ring.
  - specialize (Hlow ltac:(lia)).
    destruct (round_half_even_spec P den Hden) as [Hm Hhalf].
    set (m := round_half_even P den) in *.
    pose proof (Z.mul_div_le P den Hden) as Hf1.
    pose proof (Z.mul_succ_div_gt P den Hden) as Hf2.
    set (f := P / den) in *.
    assert (Hg : mg * 2 ^ jg * q < 2 ^ 52 * den).
    { assert (Hpg : 0 < 2 ^ jg) by (apply Z.pow_pos_nonneg; lia).
      assert (E : 2 ^ j = 2 ^ (j - jg - 1) * 2 * 2 ^ jg).
      { replace j with ((j - jg - 1) + 1 + jg) at 1 by lia.
        rewrite !Z.pow_add_r by lia. reflexivity. }
      assert (Hp1 : 1 <= 2 ^ (j - jg - 1))
        by (pose proof (Z.pow_pos_nonneg 2 (j - jg - 1)); lia).
      unfold den. rewrite E.
      change (2 ^ 53) with (2 * 2 ^ 52) in Hmg.
      assert (0 < q * 2 ^ jg) by nia. nia. }
    assert (Hf52 : 2 ^ 52 * den <= f * den).
    { apply Z.mul_le_mono_nonneg_r; [lia|].
      apply Z.div_le_lower_bound; lia. }
    destruct (Z.eq_dec m f) as [E|N].
    + rewrite E. lia.
    + assert (E : m = f + 1) by lia. rewrite E in *. lia.
Qed.

Lemma round_units_dyadic P q :
  0 <= P -> 0 < q ->
  exists m j, round_units P q = m * 2 ^ j /\ 0 <= m < 2 ^ 53 /\ 0 <= j.
Proof.
  intros HP Hq.
  destruct (Z.eq_dec P 0) as [->|HP0].
  { exists 0, 0. rewrite round_units_0 by assumption. repeat split; lia. }
  destruct (grid_exponent_spec P q ltac:(lia) Hq) as (Hj & Hup & Hlow).
  unfold round_units. set (j := grid_exponent P q) in *.
  assert (Hpj : 0 < 2 ^ j) by (apply Z.pow_pos_nonneg; lia).
  set (den := q * 2 ^ j) in *.
  assert (Hden : 0 < den) by (unfold den; nia).
  destruct (round_half_even_spec P den Hden) as [Hm _].
  set (m := round_half_even P den) in *.
  assert (Hf : 0 <= P / den < 2 ^ 53).
  { split; [apply Z.div_pos; lia|apply Z.div_lt_upper_bound; lia]. }
  destruct (Z.eq_dec m (2 ^ 53)) as [E|N].
  - exists (2 ^ 52), (j + 1). rewrite E, Z.pow_add_r by lia.
    change (2 ^ 53) with (2 ^ 52 * 2 ^ 1). split; [ring|]. split; lia.
  - exists m, j. split; [reflexivity|]. split; lia.
Qed.

Lemma round_units_normal P q :
  0 < P -> 0 < q -> 0 < grid_exponent P q ->
  exists m j, round_units P q = m * 2 ^ j /\ 2 ^ 52 <= m < 2 ^ 53 /\ 1 <= j.
Proof.
  intros HP Hq Hpos.
  destruct (grid_exponent_spec P q HP Hq) as (Hj & Hup & Hlow).
  unfold round_units. set (j := grid_exponent P q) in *.
  specialize (Hlow Hpos).
  assert (Hpj : 0 < 2 ^ j) by (apply Z.pow_pos_nonneg; lia).
  set (den := q * 2 ^ j) in *.
  assert (Hden : 0 < den) by (unfold den; nia).
  destruct (round_half_even_spec P den Hden) as [Hm _].
  set (m := round_half_even P den) in *.
  assert (Hf : 2 ^ 52 <= P / den < 2 ^ 53).
  { split; [apply Z.div_le_lower_bound; lia|apply Z.div_lt_upper_bound; lia]. }
  destruct (Z.eq_dec m (2 ^ 53)) as [E|N].
  - exists (2 ^ 52), (j + 1). rewrite E, Z.pow_add_r by lia.
    change (2 ^ 53) with (2 ^ 52 * 2 ^ 1). split; [ring|]. split; lia.
  - exists m, j. split; [reflexivity|]. split; lia.
Qed.

Lemma grid_exponent_ge P q :
  Z.log2 P - Z.log2 q - 53 <= grid_exponent P q.
Proof.
  unfold grid_exponent.
  destruct (_ <? _); lia.
Qed.

Lemma unit_scale_split : unit_scale = 2 ^ 53 * 2 ^ 1021.
Proof. unfold unit_scale. rewrite <- Z.pow_add_r by lia. reflexivity. Qed.

Lemma below_one_bound u :
  dyadic53 u -> u < unit_scale -> u <= unit_scale - 2 ^ 1021.
Proof.
  intros (m & j & -> & Hm & Hj) Hlt. rewrite unit_scale_split in *.
  set (c := 2 ^ 1021) in *.
  assert (Hc : 0 < c) by (apply Z.pow_pos_nonneg; lia).
  destruct (Z.le_gt_cases 1021 j) as [Hge|Hlt'].
  - assert (E : 2 ^ j = 2 ^ (j - 1021) * c).
    { unfold c. rewrite <- Z.pow_add_r by lia. f_equal. lia. }
    rewrite E in *.
    assert (Hp : 0 < 2 ^ (j - 1021)) by (apply Z.pow_pos_nonneg; lia).
    assert (m * 2 ^ (j - 1021) < 2 ^ 53) by nia.
    nia.
  - assert (E : c = 2 ^ (1020 - j) * 2 * 2 ^ j).
    { unfold c. replace 1021 with ((1020 - j) + 1 + j) at 1 by lia.
      rewrite !Z.pow_add_r by lia. reflexivity. }
    assert (Hp : 1 <= 2 ^ (1020 - j))
      by (pose proof (Z.pow_pos_nonneg 2 (1020 - j)); lia).
    assert (Hpj : 0 < 2 ^ j) by (apply Z.pow_pos_nonneg; lia).
    assert (m * 2 ^ j <= 2 ^ 53 * 2 ^ j) by nia.
    assert (2 * 2 ^ j <= c) by nia.
    change (2 ^ 53) with (2 * 2 ^ 52) in *. nia.
Qed.

Lemma int_to_float_normal total :
  1 <= total ->
  exists m j,
    round_units (total * unit_scale) 1 = m * 2 ^ j
    /\ 2 ^ 52 <= m < 2 ^ 53 /\ 1 <= j.
Proof.
  intros Ht.
  assert (HS : 0 < unit_scale) by (apply Z.pow_pos_nonneg; lia).
  apply round_units_normal; try nia.
  pose proof (grid_exponent_ge (total * unit_scale) 1) as Hge.
  change (Z.log2 1) with 0 in Hge.
  assert (1074 <= Z.log2 (total * unit_scale)).
  { change 1074 with (Z.log2 unit_scale) at 1. apply Z.log2_le_mono. nia. }
  lia.
Qed.

Lemma product_below ur total :
  0 <= ur <= unit_scale - 2 ^ 1021 -> 1 <= total ->
  let T := round_units (total * unit_scale) 1 in
  let v := round_units (ur * T) unit_scale in
  0 <= v < total * unit_scale.
Proof.
  intros Hur Ht T v.
  assert (HS : 0 < unit_scale) by (apply Z.pow_pos_nonneg; lia).
  destruct (int_to_float_normal total Ht) as (MT & j & HT & HMT & Hj).
  fold T in HT.
  assert (Hpj1 : 0 < 2 ^ (j - 1)) by (apply Z.pow_pos_nonneg; lia).
  assert (EB : 2 ^ j = 2 * 2 ^ (j - 1)).
  { replace j with (1 + (j - 1)) at 1 by lia. now rewrite Z.pow_add_r by lia. }
  assert (HTpos : 0 < T) by (rewrite HT; nia).
  assert (HP : 0 <= ur * T) by nia.
  destruct (round_units_dyadic (ur * T) unit_scale HP HS) as (mv & jv & Hv & Hmv & Hjv).
  fold v in Hv.
  assert (Hv0 : 0 <= v).
  { rewrite Hv. pose proof (Z.pow_pos_nonneg 2 jv). nia. }
  split; [assumption|].
  (* the rounded product stays below T *)
  assert (HvT : v < T).
  { pose proof unit_scale_split as ES. set (c := 2 ^ 1021) in *.
    assert (Hc : 0 < c) by (apply Z.pow_pos_nonneg; lia).
    assert (HPle : ur * T <= T * unit_scale - T * c) by nia.
    destruct (Z.eq_dec MT (2 ^ 52)) as [E52|N52].
    - pose proof (round_units_nearest (ur * T) unit_scale (2 ^ 53 - 1) (j - 1)
                    HP HS ltac:(lia) ltac:(lia)) as Hn.
      fold v in Hn.
      assert (ET : T = 2 ^ 53 * 2 ^ (j - 1)).
      { rewrite HT, E52, EB. change (2 ^ 53) with (2 ^ 52 * 2). ring. }
      set (B' := 2 ^ (j - 1)) in *.
      assert (Hg : (2 ^ 53 - 1) * B' * unit_scale = T * unit_scale - T * c).
      { rewrite ET, ES. ring. }
      rewrite Hg in Hn.
      assert (T * c > 0) by nia.
      assert (v * unit_scale < T * unit_scale) by lia.
      nia.
    - pose proof (round_units_nearest (ur * T) unit_scale (MT - 1) j
                    HP HS ltac:(lia) ltac:(lia)) as Hn.
      fold v in Hn.
      set (B := 2 ^ j) in *.
      assert (HB : 0 < B) by lia.
      set (W := B * c).
      assert (HW : 0 < W) by (unfold W; nia).
      assert (Hg : (MT - 1) * B * unit_scale = T * unit_scale - 2 ^ 53 * W).
      { rewrite HT, ES. unfold W. ring. }
      assert (HTc : (2 ^ 52 + 1) * W <= T * c).
      { rewrite HT. unfold W. replace (MT * B * c) with (MT * (B * c)) by ring.
        apply Z.mul_le_mono_nonneg_r; lia. }
      rewrite Hg in Hn. change (2 ^ 53) with (2 * 2 ^ 52) in Hn.
      assert (v * unit_scale < T * unit_scale) by lia.
      nia. }
  destruct (Z.le_gt_cases T (total * unit_scale)) as [Hle|Hgt]; [lia|].
  assert (HPt : 0 <= total * unit_scale) by nia.
  pose proof (round_units_nearest (total * unit_scale) 1 mv jv HPt ltac:(lia)
                Hmv Hjv) as Hn.
  fold T in Hn. rewrite <- Hv in Hn. lia.
Qed.

Lemma unit_scale_pos : 0 < unit_scale.
Proof. apply Z.pow_pos_nonneg; lia. Qed.

Lemma round_signed_nonneg P q : 0 <= P -> round_signed P q = round_units P q.
Proof.
  intros HP. unfold round_signed.
  destruct (Z.ltb_spec P 0); [lia|reflexivity].
Qed.

Lemma int_units_positive (n : Z) :
  1 <= n ->
  int_units n = round_units (n * unit_scale) 1 /\ 0 < int_units n.
Proof.
  intros Hn. pose proof unit_scale_pos as HS. unfold int_units.
  rewrite round_signed_nonneg by nia. split; [reflexivity|].
  destruct (int_to_float_normal n Hn) as (m & j & -> & Hm & Hj).
  pose proof (Z.pow_pos_nonneg 2 j). nia.
Qed.

Lemma int_units_0 : int_units 0 = 0.
Proof. unfold int_units. simpl. rewrite round_signed_nonneg by lia. now apply round_units_0. Qed.


Lemma float_of_int_in_range (n : Z) :
  in_float_range n -> float_of_int n = Ok (Finite (int_units n)).
Proof.
  unfold in_float_range, float_of_int. intros Hn.
  destruct (Z.ltb_spec (Z.abs n) (2 ^ 1024 - 2 ^ 970)); [reflexivity|lia].
Qed.

Lemma float_of_int_out_of_range (n : Z) :
  ~ in_float_range n -> float_of_int n = Raise OverflowError.
Proof.
  unfold in_float_range, float_of_int. intros Hn.
  destruct (Z.ltb_spec (Z.abs n) (2 ^ 1024 - 2 ^ 970)); [lia|reflexivity].
Qed.

(** The product of a draw of [random.random()] and a positive total is
    a finite double below the total, although it is rounded, and the
    total itself may have been rounded up. *)
Lemma draw_times_total (r : float) (total : Z) :
  unit_draw r -> 0 < total -> in_float_range total ->
  exists u,
    float_of_int total = Ok (Finite (int_units total))
    /\ fmul r (Finite (int_units total)) = Finite u
    /\ 0 <= u < total * unit_scale.
Proof.
  intros (ur & -> & Hdy & Hur) Ht Hrange.
  pose proof unit_scale_pos as HS.
  destruct (int_units_positive total ltac:(lia)) as [ET HT].
  pose proof (below_one_bound ur Hdy (proj2 Hur)) as Hle.
  pose proof (product_below ur total ltac:(lia) ltac:(lia)) as Hv.
  cbv zeta in Hv. rewrite <- ET in Hv.
  exists (round_units (ur * int_units total) unit_scale).
  split; [now apply float_of_int_in_range|]. split; [|exact Hv].
  unfold fmul. rewrite round_signed_nonneg by nia.
  unfold to_float, in_float_range in *.
  assert (0 < 2 ^ 970) by (apply Z.pow_pos_nonneg; lia).
  destruct (Z.leb_spec (2 ^ 1024 * unit_scale)
              (Z.abs (round_units (ur * int_units total) unit_scale)));
    [nia|reflexivity].
Qed.

(** ** Frequencies *)







(** ** Cumulative weights *)

Lemma accumulate_snoc ws w :
  accumulate (ws ++ [w])
  = (fst (accumulate ws) + w,
     snd (accumulate ws) ++ [fst (accumulate ws) + w]).
Proof.
  unfold accumulate. rewrite fold_left_app. simpl.
  now destruct (fold_left _ ws (0, [])).
Qed.

Lemma accumulate_total ws : fst (accumulate ws) = py_sum ws.
Proof.
  induction ws as [|w ws IH] using rev_ind; [reflexivity|].
  rewrite accumulate_snoc, py_sum_app. simpl. rewrite IH.
  rewrite py_sum_cons. unfold py_sum at 3. simpl. lia.
Qed.

Lemma accumulate_length ws : length (snd (accumulate ws)) = length ws.
Proof.
  induction ws as [|w ws IH] using rev_ind; [reflexivity|].
  rewrite accumulate_snoc. simpl. rewrite !length_app, IH. reflexivity.
Qed.

Lemma accumulate_nth ws i :
  (i < length ws)%nat -> nth i (snd (accumulate ws)) 0 = cum_at ws i.
Proof.
  revert i. induction ws as [|w ws IH] using rev_ind; intros i Hi.
  - simpl in Hi. lia.
  - rewrite accumulate_snoc. simpl. rewrite length_app in Hi. simpl in Hi.
    unfold cum_at. rewrite firstn_app.
    destruct (Nat.lt_ge_cases i (length ws)) as [Hlt|Hge].
    + rewrite app_nth1 by (rewrite accumulate_length; lia).
      rewrite IH by assumption.
      replace (S i - length ws)%nat with 0%nat by lia.
      simpl firstn at 2. now rewrite app_nil_r.
    + assert (i = length ws) by lia. subst i.
      rewrite app_nth2 by (rewrite accumulate_length; lia).
      rewrite accumulate_length, Nat.sub_diag. simpl nth.
      rewrite accumulate_total.
      rewrite firstn_all2 by lia.
      replace (S (length ws) - length ws)%nat with 1%nat by lia.
      simpl firstn. rewrite py_sum_app, py_sum_cons. unfold py_sum at 3.
      simpl. lia.
Qed.

Lemma cum_at_last ws :
  ws <> [] -> cum_at ws (length ws - 1) = py_sum ws.
Proof.
  intros Hne. unfold cum_at. rewrite firstn_all2; [reflexivity|].
  destruct ws; [contradiction|simpl; lia].
Qed.

Lemma py_sum_firstn_S ws n :
  (n < length ws)%nat ->
  py_sum (firstn (S n) ws) = py_sum (firstn n ws) + nth n ws 0.
Proof.
  revert n. induction ws as [|w ws IH]; intros n Hn; simpl in Hn; [lia|].
  destruct n as [|n].
  - simpl. rewrite py_sum_cons. unfold py_sum. simpl. lia.
  - change (firstn (S (S n)) (w :: ws)) with (w :: firstn (S n) ws).
    change (firstn (S n) (w :: ws)) with (w :: firstn n ws).
    rewrite !py_sum_cons, IH by lia. simpl. lia.
Qed.

Lemma Forall_prefix {A} (P : A -> Prop) l n :
  Forall P l -> Forall P (firstn n l).
Proof.
  intros HP. revert n. induction HP as [|a l Ha _ IH]; intros [|n]; simpl;
    constructor; auto.
Qed.

Lemma py_sum_firstn_mono ws n m :
  Forall (fun w => 0 <= w) ws -> (n <= m)%nat ->
  py_sum (firstn n ws) <= py_sum (firstn m ws).
Proof.
  intros Hpos. revert n m.
  induction Hpos as [|w ws Hw Hws IH]; intros n m Hnm.
  - rewrite !firstn_nil. lia.
  - destruct n as [|n]; destruct m as [|m]; try lia.
    + simpl firstn at 1. change (py_sum []) with 0.
      apply py_sum_nonneg. apply Forall_prefix. now constructor.
    + simpl. rewrite !py_sum_cons. specialize (IH n m). lia.
Qed.

Lemma cum_at_mono ws i j :
  Forall (fun w => 0 <= w) ws -> (i <= j)%nat -> cum_at ws i <= cum_at ws j.
Proof. intros. apply py_sum_firstn_mono; [assumption|lia]. Qed.

(** ** Bisection *)

Lemma float_lt_int_mono (x : float) (c c' : Z) :
  c <= c' -> float_lt_int x c = true -> float_lt_int x c' = true.
Proof.
  intros Hc. destruct x as [u|s|]; simpl; auto.
  rewrite !Z.ltb_lt. pose proof unit_scale_pos. nia.
Qed.



Lemma midpoint_bounds lo hi :
  (lo < hi)%nat -> (lo <= (lo + hi) / 2 /\ (lo + hi) / 2 < hi)%nat.
Proof.
  intros Hlt. split.
  - apply Nat.div_le_lower_bound; lia.
  - apply Nat.Div0.div_lt_upper_bound; lia.
Qed.

Lemma bisect_loop_S n a x lo hi :
  bisect_loop (S n) a x lo hi
  = if (lo <? hi)%nat then
      if float_lt_int x (nth ((lo + hi) / 2) a 0)
      then bisect_loop n a x lo ((lo + hi) / 2)
      else bisect_loop n a x ((lo + hi) / 2 + 1) hi
    else lo.
Proof. reflexivity. Qed.

(** Whatever the order of [a], a search for a value below the last
    element stops inside the list. *)
Lemma bisect_loop_inside n a x lo hi :
  (lo < length a)%nat -> (hi <= length a)%nat ->
  float_lt_int x (nth (length a - 1) a 0) = true ->
  (bisect_loop n a x lo hi < length a)%nat.
Proof.
  intros Hlo Hhi Hx. revert lo hi Hlo Hhi.
  induction n as [|n IH]; intros lo hi Hlo Hhi; [assumption|].
  rewrite bisect_loop_S.
  destruct (Nat.ltb_spec lo hi) as [Hlt|_]; [|assumption].
  destruct (midpoint_bounds lo hi Hlt) as [Hm1 Hm2].
  destruct (float_lt_int x (nth ((lo + hi) / 2) a 0)) eqn:E.
  - apply IH; lia.
  - apply IH; [|assumption].
    destruct (Nat.eq_dec ((lo + hi) / 2) (length a - 1)) as [Heq|Hneq].
    + rewrite Heq in E. congruence.
    + lia.
Qed.

(** On a non-decreasing list the search returns the first position
    whose element exceeds [x]. *)
Lemma bisect_loop_sorted n a x lo hi :
  nondecreasing a ->
  (lo <= hi <= length a)%nat -> (hi - lo <= n)%nat ->
  (forall i, (i < lo)%nat -> float_lt_int x (nth i a 0) = false) ->
  (forall i, (hi <= i < length a)%nat -> float_lt_int x (nth i a 0) = true) ->
  (lo <= bisect_loop n a x lo hi <= hi)%nat
  /\ (forall i, (i < bisect_loop n a x lo hi)%nat ->
                float_lt_int x (nth i a 0) = false)
  /\ (forall i, (bisect_loop n a x lo hi <= i < length a)%nat ->
                float_lt_int x (nth i a 0) = true).
Proof.
  intros Hsorted. revert lo hi.
  induction n as [|n IH]; intros lo hi Hb Hw Hlow Hhigh.
  - simpl. assert (lo = hi) by lia. subst hi. repeat split; auto; lia.
  - rewrite bisect_loop_S. destruct (Nat.ltb_spec lo hi) as [Hlt|Hge].
    + destruct (midpoint_bounds lo hi Hlt) as [Hm1 Hm2].
      set (mid := ((lo + hi) / 2)%nat) in *.
      destruct (float_lt_int x (nth mid a 0)) eqn:E.
      * destruct (IH lo mid) as (B & L & U); try lia; auto.
        { intros i Hi. eapply float_lt_int_mono; [|exact E].
          apply Hsorted. lia. }
        repeat split; auto; lia.
      * destruct (IH (mid + 1)%nat hi) as (B & L & U); try lia; auto.
        { intros i Hi.
          destruct (float_lt_int x (nth i a 0)) eqn:Ei; [|reflexivity].
          rewrite <- E. symmetry.
          eapply float_lt_int_mono; [|exact Ei]. apply Hsorted. lia. }
        repeat split; auto; lia.
    + assert (lo = hi) by lia. subst hi. repeat split; auto; lia.
Qed.

Lemma bisect_sorted a x :
  nondecreasing a ->
  (bisect a x <= length a)%nat
  /\ (forall i, (i < bisect a x)%nat -> float_lt_int x (nth i a 0) = false)
  /\ (forall i, (bisect a x <= i < length a)%nat ->
                float_lt_int x (nth i a 0) = true).
Proof.
  intros Hs. unfold bisect.
  destruct (bisect_loop_sorted (length a) a x 0 (length a) Hs)
    as (B & L & U); try lia.
  repeat split; auto; lia.
Qed.

Lemma bisect_inside a x :
  a <> [] -> float_lt_int x (nth (length a - 1) a 0) = true ->
  (bisect a x < length a)%nat.
Proof.
  intros Hne Hx. unfold bisect. apply bisect_loop_inside; auto.
  destruct a; [contradiction|simpl; lia].
Qed.

(** ** The weighted sampler *)

Lemma py_index_nat {A} (l : list A) (i : nat) :
  py_index l (Z.of_nat i)
  = match nth_error l i with Some a => Ok a | None => Raise IndexError end.
Proof.
  unfold py_index.
  destruct (Z.ltb_spec (Z.of_nat i) 0) as [Hneg|_]; [lia|].
  destruct (Z.ltb_spec (Z.of_nat i) 0) as [Hneg|_]; [lia|].
  rewrite Nat2Z.id. simpl.
  destruct (Z.leb_spec (Z.of_nat (length l)) (Z.of_nat i)) as [Hout|Hin].
  - assert (E : nth_error l i = None) by (apply nth_error_None; lia).
    now rewrite E.
  - reflexivity.
Qed.

Lemma weighted_choice_empty {A} st :
  weighted_choice (@nil (A * Z)) st = (Raise ValueError, st).
Proof. reflexivity. Qed.

Lemma weighted_choice_run {A} (choices : list (A * Z)) st :
  choices <> [] ->
  weighted_choice choices st
  = match float_of_int (fst (accumulate (map snd choices))) with
    | Ok total' =>
        (py_index (map fst choices)
           (Z.of_nat (bisect (snd (accumulate (map snd choices)))
                             (fmul (fst (random_random st)) total'))),
         snd (random_random st))
    | Raise e => (Raise e, snd (random_random st))
    end.
Proof.
  intros Hne. destruct choices as [|c cs]; [contradiction|].
  unfold weighted_choice, bind, lift, random, unzip_choices.
  destruct (accumulate (map snd (c :: cs))) as [total cum_weights].
  destruct (random_random st) as [r st']. cbn [fst snd].
  destruct (float_of_int total); reflexivity.
Qed.

(** The total beyond the range of a float: the draw is made, then the
    product raises. *)
Lemma weighted_choice_overflow {A} (choices : list (A * Z)) st :
  choices <> [] -> ~ in_float_range (py_sum (map snd choices)) ->
  weighted_choice choices st = (Raise OverflowError, snd (random_random st)).
Proof.
  intros Hne Hr. rewrite weighted_choice_run by assumption.
  now rewrite accumulate_total, float_of_int_out_of_range.
Qed.

Lemma accumulate_nondecreasing ws :
  Forall (fun w => 0 <= w) ws -> nondecreasing (snd (accumulate ws)).
Proof.
  intros Hpos i j Hij. rewrite accumulate_length in Hij.
  rewrite !accumulate_nth by lia. apply cum_at_mono; [assumption|lia].
Qed.

Lemma accumulate_last ws :
  ws <> [] ->
  nth (length (snd (accumulate ws)) - 1) (snd (accumulate ws)) 0 = py_sum ws.
Proof.
  intros Hne. rewrite accumulate_length, accumulate_nth.
  - now apply cum_at_last.
  - destruct ws; [contradiction|simpl; lia].
Qed.

(** The position that [weighted_choice] reads in [values], for a
    product [x] below the total. *)
Lemma weighted_choice_at {A} (choices : list (A * Z)) st (total' : float) :
  let weights := map snd choices in
  let x := fmul (fst (random_random st)) total' in
  choices <> [] ->
  float_of_int (py_sum weights) = Ok total' ->
  float_lt_int x (py_sum weights) = true ->
  exists i v w,
    i = bisect (snd (accumulate weights)) x
    /\ nth_error choices i = Some (v, w)
    /\ weighted_choice choices st = (Ok v, snd (random_random st)).
Proof.
  intros weights x Hne HT Hx.
  assert (Hws : weights <> []).
  { unfold weights. destruct choices; [contradiction|discriminate]. }
  assert (Hi : (bisect (snd (accumulate weights)) x < length choices)%nat).
  { rewrite <- (length_map snd choices). fold weights.
    rewrite <- (accumulate_length weights).
    apply bisect_inside.
    - intros E. apply (f_equal (@length Z)) in E.
      rewrite accumulate_length in E. destruct weights; [congruence|discriminate].
    - now rewrite accumulate_last. }
  destruct (nth_error choices (bisect (snd (accumulate weights)) x))
    as [[v w]|] eqn:E; [|apply nth_error_None in E; lia].
  exists (bisect (snd (accumulate weights)) x), v, w.
  split; [reflexivity|]. split; [assumption|].
  rewrite weighted_choice_run by assumption. fold weights.
  rewrite accumulate_total, HT. fold x. rewrite py_index_nat.
  now rewrite nth_error_map, E.
Qed.

Lemma nth_error_weight {A} (choices : list (A * Z)) i v w :
  nth_error choices i = Some (v, w) -> nth i (map snd choices) 0 = w.
Proof.
  intros E. apply (nth_error_nth _ _ 0).
  now rewrite nth_error_map, E.
Qed.

(** With weights that are not negative, the position read is the first
    one whose cumulative weight exceeds the product, and its own weight
    is positive. *)
Lemma weighted_choice_pick {A} (choices : list (A * Z)) st (total' : float) :
  let weights := map snd choices in
  let x := fmul (fst (random_random st)) total' in
  choices <> [] ->
  Forall (fun w => 0 <= w) weights ->
  float_of_int (py_sum weights) = Ok total' ->
  float_lt_int x 0 = false ->
  float_lt_int x (py_sum weights) = true ->
  exists i v w,
    nth_error choices i = Some (v, w)
    /\ weighted_choice choices st = (Ok v, snd (random_random st))
    /\ float_lt_int x (cum_at weights i) = true
    /\ (forall j, (j < i)%nat -> float_lt_int x (cum_at weights j) = false)
    /\ 0 < w.
Proof.
  intros weights x Hne Hpos HT Hx0 Hx.
  destruct (weighted_choice_at choices st total' Hne HT Hx)
    as (i & v & w & Hi & Hnth & Hrun).
  fold weights in Hi. fold x in Hi.
  assert (Hlen : (i < length weights)%nat).
  { unfold weights. rewrite length_map. apply nth_error_Some. congruence. }
  destruct (bisect_sorted (snd (accumulate weights)) x
              (accumulate_nondecreasing weights Hpos)) as (_ & L & U).
  rewrite <- Hi in L, U. rewrite accumulate_length in U.
  assert (Hup : float_lt_int x (cum_at weights i) = true).
  { rewrite <- accumulate_nth by assumption. apply U. lia. }
  assert (Hlow : forall j, (j < i)%nat ->
                           float_lt_int x (cum_at weights j) = false).
  { intros j Hj. rewrite <- accumulate_nth by lia. now apply L. }
  exists i, v, w. repeat split; auto.
  apply nth_error_weight in Hnth. fold weights in Hnth.
  destruct (Z.lt_ge_cases 0 w) as [|Hw]; [assumption|]. exfalso.
  destruct i as [|i].
  - unfold cum_at in Hup. rewrite py_sum_firstn_S in Hup by assumption.
    simpl firstn in Hup. change (py_sum []) with 0 in Hup.
    rewrite Hnth in Hup.
    rewrite (float_lt_int_mono x (0 + w) 0 ltac:(lia) Hup) in Hx0.
    discriminate.
  - specialize (Hlow i (Nat.lt_succ_diag_r i)).
    unfold cum_at in Hup.
    rewrite (py_sum_firstn_S weights (S i)) in Hup by assumption.
    fold (cum_at weights i) in Hup. rewrite Hnth in Hup.
    rewrite (float_lt_int_mono x (cum_at weights i + w) (cum_at weights i)
               ltac:(lia) Hup) in Hlow.
    discriminate.
Qed.



Lemma nonneg_zero_or_positive ws :
  Forall (fun w => 0 <= w) ws ->
  Forall (fun w => w = 0) ws \/ Exists (fun w => 0 < w) ws.
Proof.
  induction 1 as [|w ws Hw _ [IH|IH]].
  - left. constructor.
  - destruct (Z.eq_dec w 0) as [->|Hnz].
    + left. now constructor.
    + right. constructor. lia.
  - right. now constructor.
Qed.

Lemma positive_total ws :
  Forall (fun w => 0 <= w) ws -> Exists (fun w => 0 < w) ws -> 0 < py_sum ws.
Proof.
  induction 1 as [|w ws Hw Hws IH]; intros Hex; inversion Hex; subst;
    rewrite py_sum_cons.
  - pose proof (py_sum_nonneg ws Hws). lia.
  - specialize (IH H0). lia.
Qed.

Lemma in_float_range_0 : in_float_range 0.
Proof.
  unfold in_float_range. simpl Z.abs.
  pose proof (Z.pow_lt_mono_r 2 970 1024). lia.
Qed.

(** Any float times the float zero is zero or not a number: never below
    an integer. *)
Lemma times_zero_not_below (r : float) (c : Z) :
  float_lt_int (fmul r (Finite 0)) 0 = false.
Proof.
  destruct r as [u|s|]; try reflexivity.
  unfold fmul. rewrite Z.mul_0_r, round_signed_nonneg by lia.
  rewrite round_units_0 by apply unit_scale_pos. reflexivity.
Qed.

(** With all weights zero the search runs off the end of [values]. *)
Lemma weighted_choice_all_zero {A} (choices : list (A * Z)) st :
  choices <> [] ->
  Forall (fun w => w = 0) (map snd choices) ->
  weighted_choice choices st = (Raise IndexError, snd (random_random st)).
Proof.
  intros Hne Hz. set (weights := map snd choices) in *.
  rewrite weighted_choice_run by assumption. fold weights.
  rewrite accumulate_total, (py_sum_zero weights Hz).
  rewrite (float_of_int_in_range 0 in_float_range_0), int_units_0.
  set (x := fmul (fst (random_random st)) (Finite 0)).
  assert (Hx : float_lt_int x 0 = false) by (apply times_zero_not_below; exact 0).
  assert (Hpos : Forall (fun w => 0 <= w) weights).
  { eapply Forall_impl; [|exact Hz]. simpl. lia. }
  destruct (bisect_sorted (snd (accumulate weights)) x
              (accumulate_nondecreasing weights Hpos)) as (B & _ & U).
  rewrite accumulate_length in B, U.
  assert (E : bisect (snd (accumulate weights)) x = length weights).
  { destruct (Nat.eq_dec (bisect (snd (accumulate weights)) x) (length weights))
      as [|Hneq]; [assumption|].
    exfalso.
    assert (U' : float_lt_int x (nth (bisect (snd (accumulate weights)) x)
                                     (snd (accumulate weights)) 0) = true)
      by (apply U; lia).
    rewrite accumulate_nth in U' by lia.
    unfold cum_at in U'.
    rewrite (py_sum_zero (firstn _ weights)) in U'
      by (now apply Forall_prefix).
    congruence. }
  rewrite E, py_index_nat.
  assert (N : nth_error (map fst choices) (length weights) = None).
  { apply nth_error_None. unfold weights. rewrite !length_map. lia. }
  now rewrite N.
Qed.

(** A positive total in the range of a float: the draw of
    [random.random()] gives a product below it and a value comes back. *)
Lemma weighted_choice_in_range {A} (choices : list (A * Z)) st :
  unit_draw (fst (random_random st)) ->
  0 < py_sum (map snd choices) ->
  in_float_range (py_sum (map snd choices)) ->
  exists i v w u,
    fmul (fst (random_random st))
         (Finite (int_units (py_sum (map snd choices)))) = Finite u
    /\ 0 <= u < py_sum (map snd choices) * unit_scale
    /\ i = bisect (snd (accumulate (map snd choices))) (Finite u)
    /\ nth_error choices i = Some (v, w)
    /\ weighted_choice choices st = (Ok v, snd (random_random st)).
Proof.
  intros Hr Ht Hrange.
  assert (Hne : choices <> []) by (intros ->; discriminate).
  destruct (draw_times_total _ _ Hr Ht Hrange) as (u & HT & Hu & Hb).
  destruct (weighted_choice_at choices st _ Hne HT)
    as (i & v & w & Hi & Hnth & Hrun).
  { rewrite Hu. simpl. apply Z.ltb_lt. lia. }
  rewrite Hu in Hi. now exists i, v, w, u.
Qed.

(** On weights that are not negative the value that comes back has a
    positive weight. *)
Lemma weighted_choice_positive_weight {A} (choices : list (A * Z)) st :
  unit_draw (fst (random_random st)) ->
  Forall (fun w => 0 <= w) (map snd choices) ->
  0 < py_sum (map snd choices) ->
  in_float_range (py_sum (map snd choices)) ->
  exists i v w,
    nth_error choices i = Some (v, w)
    /\ weighted_choice choices st = (Ok v, snd (random_random st))
    /\ 0 < w.
Proof.
  intros Hr Hpos Ht Hrange.
  assert (Hne : choices <> []) by (intros ->; discriminate).
  destruct (draw_times_total _ _ Hr Ht Hrange) as (u & HT & Hu & Hb).
  destruct (weighted_choice_pick choices st _ Hne Hpos HT)
    as (i & v & w & Hnth & Hrun & _ & _ & Hw).
  { rewrite Hu. simpl. apply Z.ltb_ge. lia. }
  { rewrite Hu. simpl. apply Z.ltb_lt. lia. }
  now exists i, v, w.
Qed.

(** C4, as the code has it: on weights that are not negative and a draw
    of [random.random()] in [[0, 1)], [weighted_choice] fails when, and
    only when, the collection is empty, where unpacking raises
    [ValueError], or all its weights are zero, where indexing raises
    [IndexError], or the total is beyond the range of a float, where the
    product raises [OverflowError]; otherwise it returns one of the
    values. *)
Theorem weighted_choice_fails_iff {A} (choices : list (A * Z)) (st : rng) :
  Forall (fun w => 0 <= w) (map snd choices) ->
  unit_draw (fst (random_random st)) ->
  (failed (fst (weighted_choice choices st))
   <-> choices = [] \/ Forall (fun w => w = 0) (map snd choices)
       \/ ~ in_float_range (py_sum (map snd choices)))
  /\ (choices = [] ->
      fst (weighted_choice choices st) = Raise ValueError)
  /\ (choices <> [] -> Forall (fun w => w = 0) (map snd choices) ->
      fst (weighted_choice choices st) = Raise IndexError)
  /\ (choices <> [] -> ~ in_float_range (py_sum (map snd choices)) ->
      fst (weighted_choice choices st) = Raise OverflowError)
  /\ (Exists (fun w => 0 < w) (map snd choices) ->
      in_float_range (py_sum (map snd choices)) ->
      exists v, fst (weighted_choice choices st) = Ok v
                /\ In v (map fst choices)).
Proof.
  intros Hpos Hr.
  assert (Hok : Exists (fun w => 0 < w) (map snd choices) ->
                in_float_range (py_sum (map snd choices)) ->
                exists v, fst (weighted_choice choices st) = Ok v
                          /\ In v (map fst choices)).
  { intros Hex Hrange.
    pose proof (positive_total _ Hpos Hex) as Ht.
    destruct (weighted_choice_in_range choices st Hr Ht Hrange)
      as (i & v & w & u & _ & _ & _ & Hnth & Hrun).
    exists v. rewrite Hrun. split; [reflexivity|].
    apply nth_error_In in Hnth. apply in_map_iff. now exists (v, w). }
  assert (Hempty : choices = [] ->
                   fst (weighted_choice choices st) = Raise ValueError).
  { intros ->. reflexivity. }
  assert (Hzero : choices <> [] -> Forall (fun w => w = 0) (map snd choices) ->
                  fst (weighted_choice choices st) = Raise IndexError).
  { intros Hne Hz. now rewrite weighted_choice_all_zero. }
  assert (Hover : choices <> [] ->
                  ~ in_float_range (py_sum (map snd choices)) ->
                  fst (weighted_choice choices st) = Raise OverflowError).
  { intros Hne Hout. now rewrite weighted_choice_overflow. }
  split; [|auto]. split.
  - intros [e He].
    destruct choices as [|c cs] eqn:Ec; [now left|]. right. rewrite <- Ec in *.
    destruct (nonneg_zero_or_positive _ Hpos) as [Hz|Hex]; [now left|]. right.
    intros Hrange. destruct (Hok Hex Hrange) as (v & Hv & _). congruence.
  - intros [E|[Hz|Hout]].
    + exists ValueError. auto.
    + destruct choices as [|c cs] eqn:Ec.
      * exists ValueError. reflexivity.
      * exists IndexError. apply Hzero; [discriminate|assumption].
    + destruct choices as [|c cs] eqn:Ec.
      * exists ValueError. reflexivity.
      * exists OverflowError. apply Hover; [discriminate|assumption].
Qed.

(** ** Mating genes *)

Hypothesis randbelow_lt :
  forall n st, (0 < n)%nat -> (fst (random_randbelow n st) < n)%nat.

Lemma random_choice_run {A} (seq : list A) st :
  seq <> [] ->
  exists a,
    nth_error seq (fst (random_randbelow (length seq) st)) = Some a
    /\ random_choice seq st = (Ok a, snd (random_randbelow (length seq) st)).
Proof.
  intros Hne. unfold random_choice.
  assert (Hlen : (0 < length seq)%nat) by (destruct seq; [contradiction|simpl; lia]).
  destruct (Nat.eqb_spec (length seq) 0) as [E|_]; [lia|].
  pose proof (randbelow_lt (length seq) st Hlen) as Hi.
  destruct (random_randbelow (length seq) st) as [i st'] eqn:Ei. simpl in *.
  rewrite py_index_nat.
  destruct (nth_error seq i) as [a|] eqn:Ea.
  - now exists a.
  - apply nth_error_None in Ea. lia.
Qed.

Lemma Gene_mate_run (self other : Gene) st :
  self <> [] -> other <> [] ->
  let i := fst (random_randbelow (length self) st) in
  let st1 := snd (random_randbelow (length self) st) in
  let j := fst (random_randbelow (length other) st1) in
  let st2 := snd (random_randbelow (length other) st1) in
  exists a b,
    nth_error self i = Some a /\ nth_error other j = Some b
    /\ Gene_mate self other st = (Ok (sorted [a; b]), st2).
Proof.
  intros Hs Ho i st1 j st2.
  destruct (random_choice_run self st Hs) as (a & Ha & Hra).
  destruct (random_choice_run other st1 Ho) as (b & Hb & Hrb).
  exists a, b. repeat split; auto.
  unfold Gene_mate, bind. rewrite Hra. fold st1. rewrite Hrb. reflexivity.
Qed.

Lemma pair_slot {A} (a1 a2 a : A) i :
  nth_error [a1; a2] i = Some a ->
  (i = 0%nat /\ a = a1) \/ (i = 1%nat /\ a = a2).
Proof.
  destruct i as [|[|i]]; simpl; intros E.
  - left. split; congruence.
  - right. split; congruence.
  - destruct i; discriminate.
Qed.

(** C6: the offspring of the genes [(a1, a2)] and [(a3, a4)] is
    [Gene(self[i], other[j])] for the two slots [i] and [j] drawn, hence
    one of [Gene(a1,a3)], [Gene(a1,a4)], [Gene(a2,a3)], [Gene(a2,a4)];
    under uniform and independent slot choices each of the four slot
    combinations has probability 1/4; [Gene(1,1).mate(Gene(2,2))] is
    always [Gene(1,2)]. *)
Theorem Gene_mate_offspring (a1 a2 a3 a4 : Z) (st : rng) :
  let i := fst (random_randbelow 2 st) in
  let st1 := snd (random_randbelow 2 st) in
  let j := fst (random_randbelow 2 st1) in
  let st2 := snd (random_randbelow 2 st1) in
  let outcomes :=
    [Gene_new [a1; a3]; Gene_new [a1; a4];
     Gene_new [a2; a3]; Gene_new [a2; a4]] in
  Gene_mate [a1; a2] [a3; a4] st
    = (Gene_new [nth i [a1; a2] 0; nth j [a3; a4] 0], st2)
  /\ In (fst (Gene_mate [a1; a2] [a3; a4] st)) outcomes
  /\ Gene_mate_dist [a1; a2] [a3; a4]
     = map (fun o => (o, 1 # 4)) outcomes
  /\ nth_error (Gene_mate_dist [a1; a2] [a3; a4]) (2 * i + j)
     = Some (fst (Gene_mate [a1; a2] [a3; a4] st), 1 # 4)
  /\ fst (Gene_mate [1; 1] [2; 2] st) = Ok [1; 2].
Proof.
  intros i st1 j st2 outcomes.
  assert (Hrun : forall b1 b2 b3 b4,
             exists a b,
               ((i = 0%nat /\ a = b1) \/ (i = 1%nat /\ a = b2))
               /\ ((j = 0%nat /\ b = b3) \/ (j = 1%nat /\ b = b4))
               /\ Gene_mate [b1; b2] [b3; b4] st = (Gene_new [a; b], st2)).
  { intros b1 b2 b3 b4.
    destruct (Gene_mate_run [b1; b2] [b3; b4] st) as (a & b & Ha & Hb & Hm);
      try discriminate.
    exists a, b. split; [now apply pair_slot|]. split; [now apply pair_slot|].
    exact Hm. }
  split; [|split; [|split; [|split]]].
  - destruct (Hrun a1 a2 a3 a4) as (a & b & [[Hi ->]|[Hi ->]] & [[Hj ->]|[Hj ->]] & Hm);
      rewrite Hm, Hi, Hj; reflexivity.
  - destruct (Hrun a1 a2 a3 a4) as (a & b & [[Hi ->]|[Hi ->]] & [[Hj ->]|[Hj ->]] & Hm);
      rewrite Hm; simpl; auto.
  - reflexivity.
  - destruct (Hrun a1 a2 a3 a4) as (a & b & [[Hi ->]|[Hi ->]] & [[Hj ->]|[Hj ->]] & Hm);
      rewrite Hm, Hi, Hj; reflexivity.
  - destruct (Hrun 1 1 2 2) as (a & b & [[Hi ->]|[Hi ->]] & [[Hj ->]|[Hj ->]] & Hm);
      rewrite Hm; reflexivity.
Qed.

(** ** Mating genomes *)

Lemma sorted_idempotent_pair a b : sorted (sorted [a; b]) = sorted [a; b].
Proof. rewrite !sorted_pair. f_equal; [|f_equal]; lia. Qed.

Lemma canonical_pair_length g : canonical_pair g -> length g = 2%nat.
Proof. intros (a & b & ->). now rewrite sorted_length. Qed.

Lemma rmap_cons {A B} (f : A -> result B) a l :
  rmap f (a :: l)
  = (let? b := f a in let? bs := rmap f l in Ok (b :: bs)).
Proof. reflexivity. Qed.

Lemma Gene_rebuild a b :
  (let? a0 := py_index (sorted [a; b]) 0 in
   let? a1 := py_index (sorted [a; b]) 1 in
   Gene_new [a0; a1]) = Ok (sorted [a; b]).
Proof.
  rewrite sorted_pair.
  change (Gene_new [Z.min a b; Z.max a b] = Ok [Z.min a b; Z.max a b]).
  rewrite Gene_new_pair. f_equal. f_equal; [|f_equal]; lia.
Qed.

(** [Genome] rebuilds each gene of the comprehension from its two
    alleles, which leaves a gene built by [Gene(a, b)] as it is. *)
Lemma Genome_new_canonical (genes : list Gene) :
  Forall canonical_pair genes -> Genome_new genes = Ok genes.
Proof.
  induction 1 as [|g genes (a & b & ->) _ IH]; [reflexivity|].
  unfold Genome_new in *. rewrite rmap_cons. cbv beta.
  rewrite Gene_rebuild, IH. reflexivity.
Qed.

(** Every genome that [Genome] builds is well formed. *)
Lemma Genome_new_wf (genotypes : list (list Z)) (g : Genome) :
  Genome_new genotypes = Ok g -> wf_Genome g.
Proof.
  unfold Genome_new, wf_Genome. revert g.
  induction genotypes as [|gt genotypes IH]; intros g.
  - intros [= <-]. constructor.
  - rewrite rmap_cons. cbv beta.
    destruct (py_index gt 0) as [a0|]; [|discriminate].
    destruct (py_index gt 1) as [a1|]; [|discriminate].
    cbn [rbind]. rewrite Gene_new_pair. cbn [rbind].
    destruct (rmap _ genotypes) as [gs|]; [|discriminate].
    cbn [rbind]. intros [= <-]. constructor; [reflexivity|]. now apply IH.
Qed.

Lemma wf_gene_nonempty (g : Gene) : length g = 2%nat -> g <> [].
Proof. intros Hl ->. discriminate. Qed.

Lemma mate_loci (self other : Genome) st :
  wf_Genome self -> wf_Genome other -> length self = length other ->
  exists genes st',
    mmap (fun '(s, o) => Gene_mate s o) (combine self other) st
    = (Ok genes, st')
    /\ loci_mated self other st genes st'
    /\ Forall canonical_pair genes
    /\ length genes = length self.
Proof.
  intros Hs. revert other st.
  induction Hs as [|s self Hlen Hs IH]; intros other st Ho Hl.
  - destruct other; [|discriminate].
    exists [], st. repeat split; constructor.
  - destruct other as [|o other]; [discriminate|].
    inversion Ho as [|? ? Holen Ho']; subst.
    destruct (Gene_mate_run s o st (wf_gene_nonempty s Hlen)
                (wf_gene_nonempty o Holen)) as (a & b & _ & _ & Hm).
    set (st2 := snd (random_randbelow (length o)
                       (snd (random_randbelow (length s) st)))) in *.
    destruct (IH other st2 Ho') as (genes & st' & Hmm & Hrel & Hcan & Hgl).
    { simpl in Hl. lia. }
    exists (sorted [a; b] :: genes), st'.
    split; [|split; [|split]].
    + simpl. unfold bind at 1. rewrite Hm.
      unfold bind at 1. rewrite Hmm. reflexivity.
    + econstructor; eauto.
    + constructor; [now exists a, b|assumption].
    + simpl. now rewrite Hgl.
Qed.

Lemma Genome_mate_mismatch (self other : Genome) st :
  length self <> length other ->
  Genome_mate self other st = (Raise AssertionError, st).
Proof.
  intros Hl. unfold Genome_mate.
  destruct (Nat.eqb_spec (length self) (length other)); [contradiction|].
  reflexivity.
Qed.

Lemma Genome_mate_run (self other : Genome) st :
  wf_Genome self -> wf_Genome other -> length self = length other ->
  exists child st',
    Genome_mate self other st = (Ok child, st')
    /\ length child = length self
    /\ loci_mated self other st child st'
    /\ wf_Genome child.
Proof.
  intros Hs Ho Hl.
  destruct (mate_loci self other st Hs Ho Hl)
    as (genes & st' & Hmm & Hrel & Hcan & Hgl).
  exists genes, st'. repeat split; auto.
  - unfold Genome_mate.
    destruct (Nat.eqb_spec (length self) (length other)); [|contradiction].
    change (negb true) with false. unfold bind. cbv beta iota.
    rewrite Hmm.
    unfold lift. now rewrite Genome_new_canonical.
  - eapply Forall_impl; [|exact Hcan]. apply canonical_pair_length.
Qed.

(** C7: [Genome.mate] fails, on its assertion, whenever the two genomes
    differ in their number of loci; with the same number, on genomes as
    [Genome] builds them, it returns a genome of that length whose gene
    at every locus is what [Gene.mate] returns for the parents' genes at
    that locus, the loci being taken in order and each with draws of its
    own. *)
Theorem Genome_mate_loci (self other : Genome) (st : rng) :
  (length self <> length other ->
   Genome_mate self other st = (Raise AssertionError, st))
  /\ (wf_Genome self -> wf_Genome other ->
      length self = length other ->
      exists child st',
        Genome_mate self other st = (Ok child, st')
        /\ length child = length self
        /\ loci_mated self other st child st').
Proof.
  split.
  - apply Genome_mate_mismatch.
  - intros Hs Ho Hl.
    destruct (Genome_mate_run self other st Hs Ho Hl)
      as (child & st' & Hrun & Hlen & Hrel & _).
    now exists child, st'.
Qed.

(** ** Dictionaries of counts *)

Lemma dict_get_set_same {K V} `{EqDec K} (d : dict K V) k v :
  dict_get (dict_set d k v) k = Some v.
Proof.
  induction d as [|[k' v'] d IH]; simpl.
  - destruct (eq_dec k k); congruence.
  - destruct (eq_dec k' k) as [E|N]; simpl.
    + destruct (eq_dec k' k); congruence.
    + destruct (eq_dec k' k); congruence.
Qed.

Lemma dict_get_set_other {K V} `{EqDec K} (d : dict K V) k k' v :
  k <> k' -> dict_get (dict_set d k v) k' = dict_get d k'.
Proof.
  intros Hne. induction d as [|[k0 v0] d IH]; simpl.
  - destruct (eq_dec k k'); congruence.
  - destruct (eq_dec k0 k) as [E|N]; simpl.
    + subst. destruct (eq_dec k k'); congruence.
    + destruct (eq_dec k0 k'); congruence.
Qed.

Lemma dict_set_sum {K} `{EqDec K} (d : dict K Z) k v :
  py_sum (dict_values (dict_set d k v))
  = py_sum (dict_values d)
    - match dict_get d k with Some o => o | None => 0 end + v.
Proof.
  unfold dict_values. induction d as [|[k' v'] d IH]; simpl.
  - rewrite py_sum_cons. change (py_sum []) with 0. lia.
  - destruct (eq_dec k' k); simpl; rewrite !py_sum_cons; lia.
Qed.

Lemma dd_iadd_sum {K} `{EqDec K} (d : dict K Z) k n :
  py_sum (dict_values (dd_iadd d k n)) = py_sum (dict_values d) + n.
Proof.
  unfold dd_iadd, dd_getitem.
  destruct (dict_get d k) as [v|] eqn:E.
  - rewrite dict_set_sum, E. lia.
  - rewrite !dict_set_sum, dict_get_set_same, E. lia.
Qed.

Lemma dd_isub_sum {K} `{EqDec K} (d : dict K Z) k n :
  py_sum (dict_values (dd_isub d k n)) = py_sum (dict_values d) - n.
Proof.
  unfold dd_isub, dd_getitem.
  destruct (dict_get d k) as [v|] eqn:E.
  - rewrite dict_set_sum, E. lia.
  - rewrite !dict_set_sum, dict_get_set_same, E. lia.
Qed.

Lemma dict_get_key {K V} `{EqDec K} (d : dict K V) k :
  In k (dict_keys d) -> exists v, dict_get d k = Some v.
Proof.
  unfold dict_keys. induction d as [|[k' v'] d IH]; simpl; [contradiction|].
  intros [E|Hin]; destruct (eq_dec k' k); eauto; contradiction.
Qed.

Lemma dict_set_keys {K V} `{EqDec K} (d : dict K V) k v :
  In k (dict_keys d) -> dict_keys (dict_set d k v) = dict_keys d.
Proof.
  unfold dict_keys. induction d as [|[k' v'] d IH]; simpl; [contradiction|].
  intros Hin. destruct (eq_dec k' k) as [E|N]; simpl; [reflexivity|].
  f_equal. apply IH. destruct Hin; [contradiction|assumption].
Qed.

Lemma dd_isub_keys {K} `{EqDec K} (d : dict K Z) k n :
  In k (dict_keys d) -> dict_keys (dd_isub d k n) = dict_keys d.
Proof.
  intros Hin. unfold dd_isub, dd_getitem.
  destruct (dict_get_key d k Hin) as [v ->].
  now apply dict_set_keys.
Qed.

(** [d[k] += 1] keeps every key and lowers no count. *)
Lemma dd_iadd_grows {K} `{EqDec K} (d : dict K Z) k g c :
  dict_get d g = Some c ->
  exists c', dict_get (dd_iadd d k 1) g = Some c' /\ c <= c'.
Proof.
  intros Hg. unfold dd_iadd, dd_getitem.
  destruct (eq_dec k g) as [->|Hne].
  - rewrite Hg, dict_get_set_same. exists (c + 1). split; [reflexivity|lia].
  - destruct (dict_get d k);
      rewrite ?dict_get_set_other by assumption;
      exists c; (split; [assumption|lia]).
Qed.

(** ** One generation of mating *)

Hypothesis random_unit :
  forall st, unit_draw (fst (random_random st)).

Lemma in_float_range_below (m n : Z) :
  0 <= m <= n -> in_float_range n -> in_float_range m.
Proof. unfold in_float_range. lia. Qed.

Lemma mate_step_eq (s : Species) (w : world) g1 st1 g2 st2 child st3 :
  weighted_choice (dict_items s) (gen w) = (Ok g1, st1) ->
  weighted_choice (dict_items (dd_isub s g1 1)) st1 = (Ok g2, st2) ->
  Genome_mate g1 g2 st2 = (Ok child, st3) ->
  mate_step s w
  = (Ok (dd_isub (dd_isub s g1 1) g2 1),
     World (dd_iadd (live w) child 1) st3).
Proof.
  intros H1 H2 H3. unfold mate_step, bind, zoom, update_live, ret.
  rewrite H1. simpl. rewrite H2. simpl. rewrite H3. reflexivity.
Qed.

Lemma mate_loop_done fuel (s : Species) (w : world) :
  Species_population s < 2 -> mate_loop fuel s w = Some (Ok tt, w).
Proof.
  intros Hp. destruct fuel; simpl;
    destruct (Z.leb_spec 2 (Species_population s)); try lia; reflexivity.
Qed.

Lemma mate_loop_turn fuel (s s' : Species) (w w' : world) :
  2 <= Species_population s ->
  mate_step s w = (Ok s', w') ->
  mate_loop (S fuel) s w = mate_loop fuel s' w'.
Proof.
  intros Hp Hstep. simpl.
  destruct (Z.leb_spec 2 (Species_population s)); [|lia].
  now rewrite Hstep.
Qed.

(** More turns than the loop takes change nothing. *)
Lemma mate_loop_fuel_mono fuel fuel' (s : Species) (w : world) r :
  mate_loop fuel s w = Some r -> (fuel <= fuel')%nat ->
  mate_loop fuel' s w = Some r.
Proof.
  revert fuel' s w. induction fuel as [|fuel IH]; intros fuel' s w Hrun Hle.
  - simpl in Hrun.
    destruct (Z.leb_spec 2 (Species_population s)); [discriminate|].
    rewrite mate_loop_done by assumption. now rewrite <- Hrun.
  - destruct fuel' as [|fuel']; [lia|].
    simpl in *. destruct (2 <=? Species_population s); [|assumption].
    destruct (mate_step s w) as [[s'|e] w']; [|assumption].
    apply IH; [assumption|lia].
Qed.

(** A draw from a pool that still holds an individual returns one of
    its genomes. *)
Lemma draw_parent (s : Species) st :
  0 < Species_population s -> in_float_range (Species_population s) ->
  exists g, In g (dict_keys s)
            /\ weighted_choice (dict_items s) st
               = (Ok g, snd (random_random st)).
Proof.
  intros Hp Hrange. unfold Species_population, dict_values in Hp, Hrange.
  destruct (weighted_choice_in_range (dict_items s) st (random_unit st)
              Hp Hrange)
    as (i & g & c & u & _ & _ & _ & Hnth & Hrun).
  exists g. split; [|assumption].
  apply nth_error_In in Hnth. unfold dict_keys.
  apply in_map_iff. now exists (g, c).
Qed.

Lemma mate_step_run (L : nat) (s : Species) (w : world) :
  pool_ok L s -> 2 <= Species_population s ->
  in_float_range (Species_population s) ->
  exists g1 g2 child st',
    In g1 (dict_keys s) /\ In g2 (dict_keys s)
    /\ wf_Genome child /\ length child = L
    /\ mate_step s w
       = (Ok (dd_isub (dd_isub s g1 1) g2 1),
          World (dd_iadd (live w) child 1) st').
Proof.
  intros Hpool Hp Hrange.
  destruct (draw_parent s (gen w)) as (g1 & Hg1 & Hr1); [lia|assumption|].
  set (st1 := snd (random_random (gen w))) in *.
  assert (Hk1 : dict_keys (dd_isub s g1 1) = dict_keys s)
    by now apply dd_isub_keys.
  assert (Hp1 : Species_population (dd_isub s g1 1) = Species_population s - 1).
  { unfold Species_population. rewrite dd_isub_sum. lia. }
  destruct (draw_parent (dd_isub s g1 1) st1) as (g2 & Hg2 & Hr2).
  { lia. }
  { apply (in_float_range_below _ (Species_population s)); [lia|assumption]. }
  rewrite Hk1 in Hg2.
  set (st2 := snd (random_random st1)) in *.
  unfold pool_ok in Hpool. rewrite Forall_forall in Hpool.
  destruct (Hpool g1 Hg1) as [Hwf1 HL1].
  destruct (Hpool g2 Hg2) as [Hwf2 HL2].
  destruct (Genome_mate_run g1 g2 st2 Hwf1 Hwf2) as (child & st3 & Hm & Hcl & _ & Hcw).
  { congruence. }
  exists g1, g2, child, st3. repeat split; auto; [congruence|].
  eapply mate_step_eq; eauto.
Qed.

Lemma mate_loop_run (L : nat) fuel (s : Species) (w : world) :
  pool_ok L s ->
  in_float_range (Species_population s) ->
  (Z.to_nat (Species_population s / 2) <= fuel)%nat ->
  exists w',
    mate_loop fuel s w = Some (Ok tt, w')
    /\ Species_population (live w')
       = Species_population (live w)
         + Z.of_nat (Z.to_nat (Species_population s / 2))
    /\ (forall g c, dict_get (live w) g = Some c ->
                    exists c', dict_get (live w') g = Some c' /\ c <= c').
Proof.
  revert s w. induction fuel as [|fuel IH]; intros s w Hpool Hrange Hfuel.
  - assert (Hp : Species_population s < 2).
    { destruct (Z.lt_ge_cases (Species_population s) 2) as [|Hge]; [assumption|].
      assert (1 <= Species_population s / 2)
        by (apply Z.div_le_lower_bound; lia).
      lia. }
    exists w. rewrite mate_loop_done by assumption.
    split; [reflexivity|]. split.
    + replace (Z.to_nat (Species_population s / 2)) with 0%nat by lia.
      simpl. lia.
    + intros g c Hg. exists c. split; [assumption|lia].
  - destruct (Z.lt_ge_cases (Species_population s) 2) as [Hp|Hp].
    + exists w. rewrite mate_loop_done by assumption.
      split; [reflexivity|]. split.
      * assert (Species_population s / 2 <= 0).
        { assert (Species_population s / 2 < 1)
            by (apply Z.div_lt_upper_bound; lia).
          lia. }
        replace (Z.to_nat (Species_population s / 2)) with 0%nat by lia.
        simpl. lia.
      * intros g c Hg. exists c. split; [assumption|lia].
    + destruct (mate_step_run L s w Hpool Hp Hrange)
        as (g1 & g2 & child & st' & Hg1 & Hg2 & Hcw & Hcl & Hstep).
      set (s' := dd_isub (dd_isub s g1 1) g2 1) in *.
      set (w1 := World (dd_iadd (live w) child 1) st') in *.
      assert (Hk1 : dict_keys (dd_isub s g1 1) = dict_keys s)
        by now apply dd_isub_keys.
      assert (Hk : dict_keys s' = dict_keys s).
      { unfold s'. rewrite dd_isub_keys; [assumption|]. now rewrite Hk1. }
      assert (Hps : Species_population s' = Species_population s - 2).
      { unfold s', Species_population. rewrite !dd_isub_sum. lia. }
      assert (Hhalf : Species_population s' / 2 = Species_population s / 2 - 1).
      { rewrite Hps.
        replace (Species_population s - 2)
          with (Species_population s + (-1) * 2) by lia.
        rewrite Z.div_add by lia. lia. }
      assert (Hpos : 1 <= Species_population s / 2)
        by (apply Z.div_le_lower_bound; lia).
      destruct (IH s' w1) as (w' & Hrun & Hpop & Hmono).
      { unfold pool_ok. now rewrite Hk. }
      { apply (in_float_range_below _ (Species_population s));
          [lia|assumption]. }
      { rewrite Hhalf. lia. }
      exists w'. rewrite (mate_loop_turn fuel s s' w w1 Hp Hstep).
      split; [assumption|]. split.
      * rewrite Hpop. unfold w1. simpl live.
        unfold Species_population at 1. rewrite dd_iadd_sum.
        fold (Species_population (live w)). rewrite Hhalf. lia.
      * intros g c Hg.
        destruct (dd_iadd_grows (live w) child g c Hg) as (c1 & Hc1 & Hle1).
        destruct (Hmono g c1) as (c' & Hc' & Hle'); [exact Hc1|].
        exists c'. split; [assumption|lia].
Qed.

(** C1, as the code has it: on a population of [N] individuals whose
    genomes are well formed and have the same number of loci, with [N]
    not negative and within the range of a float, for every state of
    the generator, hence every sequence of draws, [mate()] ends after
    [floor(N/2)] turns of its loop without raising; every genome of the
    population is still there with a count that is not lower, and the
    total is [N + floor(N/2)]. *)
Theorem Species_mate_growth (L : nat) (self : Species) (st : rng) :
  let N := Species_population self in
  pool_ok L self ->
  0 <= N ->
  in_float_range N ->
  exists self' st',
    (forall fuel, (Z.to_nat (N / 2) <= fuel)%nat ->
       Species_mate fuel (World self st) = Some (Ok tt, World self' st'))
    /\ Species_population self' = N + N / 2
    /\ (forall g c, dict_get self g = Some c ->
                    exists c', dict_get self' g = Some c' /\ c <= c').
Proof.
  intros N Hpool HN Hrange.
  destruct (mate_loop_run L (Z.to_nat (N / 2)) self (World self st) Hpool
              Hrange (Nat.le_refl _))
    as ([self' st'] & Hrun & Hpop & Hmono).
  exists self', st'. split; [|split].
  - intros fuel Hfuel. unfold Species_mate. simpl live.
    rewrite Species_init_copy. eapply mate_loop_fuel_mono; eauto.
  - simpl in Hpop. rewrite Hpop. fold N.
    assert (0 <= N / 2) by (apply Z.div_pos; lia). lia.
  - exact Hmono.
Qed.

(** ** The test case *)

Example setUp_genomes :
  Genome_new [[1; 1]] = Ok genome1
  /\ Genome_new [[2; 2]] = Ok genome2
  /\ Genome_new [[1; 2]] = Ok genome12
  /\ Species_init [(OGenome genome1, 1); (OGenome genome2, 1)] = Ok sp0.
Proof. repeat split. Qed.

Example sp0_before_mating :
  Species_population sp0 = 2
  /\ Species_genome_frequencies sp0
     = Ok [(genome1, half); (genome2, half)]
  /\ Species_allele_counts sp0 0 = Ok [(1, 2); (2, 2)]
  /\ Species_allele_frequencies sp0 0 = Ok [(1, half); (2, half)].
Proof. repeat apply conj; vm_compute; reflexivity. Qed.

Lemma Gene_mate_homozygous (a b : Z) st :
  exists st', Gene_mate [a; a] [b; b] st = (Ok (sorted [a; b]), st').
Proof.
  destruct (Gene_mate_run [a; a] [b; b] st) as (x & y & Hx & Hy & Hm);
    try discriminate.
  apply pair_slot in Hx. apply pair_slot in Hy.
  assert (x = a) by (destruct Hx as [[_ E]|[_ E]]; exact E).
  assert (y = b) by (destruct Hy as [[_ E]|[_ E]]; exact E).
  subst. eauto.
Qed.

Lemma Genome_mate_single (s o g : Gene) st st' :
  Gene_mate s o st = (Ok g, st') -> canonical_pair g ->
  Genome_mate [s] [o] st = (Ok [g], st').
Proof.
  intros Hm Hc. unfold Genome_mate.
  cbn [length Nat.eqb negb combine mmap]. unfold bind, ret. rewrite Hm.
  unfold lift. rewrite Genome_new_canonical; [reflexivity|].
  now repeat constructor.
Qed.

(** The two parents of the test population are its two genomes, in
    either order: the first draw empties the count of its genome in the
    working copy. *)
Lemma sp0_parents st :
  exists g1 g2 st2,
    ((g1 = genome1 /\ g2 = genome2) \/ (g1 = genome2 /\ g2 = genome1))
    /\ weighted_choice (dict_items sp0) st = (Ok g1, snd (random_random st))
    /\ weighted_choice (dict_items (dd_isub sp0 g1 1)) (snd (random_random st))
       = (Ok g2, st2)
    /\ Species_population (dd_isub (dd_isub sp0 g1 1) g2 1) = 0.
Proof.
  set (st1 := snd (random_random st)).
  destruct (weighted_choice_positive_weight sp0 st)
    as (i & g1 & c1 & Hn1 & Hr1 & Hc1).
  { apply random_unit. }
  { repeat constructor; simpl; lia. }
  { reflexivity. }
  { vm_compute. reflexivity. }
  fold st1 in Hr1.
  assert (Hcase : g1 = genome1 \/ g1 = genome2).
  { destruct i as [|[|i]]; simpl in Hn1.
    - left. congruence.
    - right. congruence.
    - destruct i; discriminate. }
  destruct Hcase as [-> | ->].
  - destruct (weighted_choice_positive_weight (dd_isub sp0 genome1 1) st1)
      as (j & g2 & c2 & Hn2 & Hr2 & Hc2).
    { apply random_unit. }
    { repeat constructor; simpl; lia. }
    { reflexivity. }
    { vm_compute. reflexivity. }
    exists genome1, g2, (snd (random_random st1)).
    destruct j as [|[|j]]; simpl in Hn2.
    + inversion Hn2; subst. lia.
    + inversion Hn2; subst. repeat split; auto.
    + destruct j; discriminate.
  - destruct (weighted_choice_positive_weight (dd_isub sp0 genome2 1) st1)
      as (j & g2 & c2 & Hn2 & Hr2 & Hc2).
    { apply random_unit. }
    { repeat constructor; simpl; lia. }
    { reflexivity. }
    { vm_compute. reflexivity. }
    exists genome2, g2, (snd (random_random st1)).
    destruct j as [|[|j]]; simpl in Hn2.
    + inversion Hn2; subst. repeat split; auto.
    + inversion Hn2; subst. lia.
    + destruct j; discriminate.
Qed.

(** C2: from the species with one [Genome((1,1))] and one
    [Genome((2,2))], whatever the draws, one [mate()] adds exactly one
    [Genome((1,2))]: the population is 3, each of the three genomes has
    the frequency [third], the float that [1/3] is in Python, and each
    of the two alleles has the frequency [half], the float [0.5]. *)
Theorem test_2genotype_2allele (st : rng) :
  exists self' st' freqs,
    (forall fuel, (1 <= fuel)%nat ->
       Species_mate fuel (World sp0 st) = Some (Ok tt, World self' st'))
    /\ self' = [(genome1, 1); (genome2, 1); (genome12, 1)]
    /\ Species_population self' = 3
    /\ Species_genome_frequencies self' = Ok freqs
    /\ dict_equal freqs
         [(genome1, third); (genome12, third); (genome2, third)]
    /\ Species_allele_frequencies self' 0 = Ok [(1, half); (2, half)]
    /\ py_truediv 1 (Finite (int_units 3)) = Ok third
    /\ (float_value third == (1 # 3) - (1 # (3 * 2 ^ 54)))%Q
    /\ (float_value half == 1 # 2)%Q.
Proof.
  destruct (sp0_parents st) as (g1 & g2 & st2 & Hcase & Hr1 & Hr2 & Hpop).
  assert (Hchild : exists st3, Genome_mate g1 g2 st2 = (Ok genome12, st3)).
  { destruct Hcase as [[-> ->]|[-> ->]].
    - destruct (Gene_mate_homozygous 1 2 st2) as [st3 Hm].
      exists st3. apply Genome_mate_single; [exact Hm|]. now exists 1, 2.
    - destruct (Gene_mate_homozygous 2 1 st2) as [st3 Hm].
      exists st3. apply Genome_mate_single; [exact Hm|]. now exists 2, 1. }
  destruct Hchild as [st3 Hm].
  exists [(genome1, 1); (genome2, 1); (genome12, 1)], st3,
    [(genome1, third); (genome2, third); (genome12, third)].
  split; [|repeat apply conj; try (vm_compute; reflexivity)].
  - intros fuel Hfuel. destruct fuel as [|fuel]; [lia|].
    unfold Species_mate. simpl live. rewrite Species_init_copy.
    rewrite (mate_loop_turn fuel sp0 _ (World sp0 st) _
               ltac:(reflexivity)
               (mate_step_eq sp0 (World sp0 st) _ _ _ _ _ _ Hr1 Hr2 Hm)).
    rewrite mate_loop_done by (rewrite Hpop; lia).
    reflexivity.
  - intros k. simpl.
    repeat match goal with
           | |- context [eq_dec ?a k] => destruct (eq_dec a k); subst
           end; try reflexivity; try discriminate; congruence.
Qed.

(** ** More on genes and genomes *)

Lemma py_index_inside {A} (l : list A) (i : nat) (d : A) :
  (i < length l)%nat -> py_index l (Z.of_nat i) = Ok (nth i l d).
Proof.
  intros Hi. rewrite py_index_nat.
  destruct (nth_error l i) as [a|] eqn:E.
  - now rewrite (nth_error_nth _ _ d E).
  - apply nth_error_None in E. lia.
Qed.

Lemma py_index_inside_Z {A} (l : list A) (i : Z) (d : A) :
  0 <= i < Z.of_nat (length l) -> py_index l i = Ok (nth (Z.to_nat i) l d).
Proof.
  intros Hi. rewrite <- (Z2Nat.id i) at 1 by lia.
  apply py_index_inside. lia.
Qed.

Lemma py_index_outside {A} (l : list A) (i : Z) :
  i < - Z.of_nat (length l) \/ Z.of_nat (length l) <= i ->
  py_index l i = Raise IndexError.
Proof.
  intros Hi. unfold py_index.
  destruct (Z.ltb_spec i 0).
  - destruct (Z.ltb_spec (i + Z.of_nat (length l)) 0); [reflexivity|lia].
  - destruct (Z.ltb_spec i 0); [lia|].
    destruct (Z.leb_spec (Z.of_nat (length l)) i); [reflexivity|lia].
Qed.

Lemma py_index_negative {A} (l : list A) (i : Z) :
  - Z.of_nat (length l) <= i < 0 ->
  py_index l i = py_index l (i + Z.of_nat (length l)).
Proof.
  intros Hi. unfold py_index. cbv zeta.
  destruct (Z.ltb_spec i 0); [|lia].
  destruct (Z.ltb_spec (i + Z.of_nat (length l)) 0); [lia|].
  destruct (Z.ltb_spec (i + Z.of_nat (length l)) 0); [lia|].
  reflexivity.
Qed.

(** Two ascending lists with the same elements are the same list. *)
Lemma ascending_unique (l1 l2 : list Z) :
  Sorted Z.le l1 -> Sorted Z.le l2 -> Permutation l1 l2 -> l1 = l2.
Proof.
  intros H1 H2.
  apply Sorted_StronglySorted in H1; [|exact Z.le_trans].
  apply Sorted_StronglySorted in H2; [|exact Z.le_trans].
  revert l2 H2. induction H1 as [|a l1 Hs1 IH Ha]; intros l2 H2 Hp.
  - apply Permutation_nil in Hp. now subst.
  - destruct H2 as [|b l2 Hs2 Hb].
    + apply Permutation_sym, Permutation_nil in Hp. discriminate.
    + assert (Hab : a = b).
      { assert (Hina : In a (b :: l2))
          by (eapply Permutation_in; [exact Hp|now left]).
        assert (Hinb : In b (a :: l1))
          by (eapply Permutation_in; [apply Permutation_sym; exact Hp|now left]).
        rewrite Forall_forall in Ha, Hb.
        destruct Hina as [E|Hina]; [congruence|].
        destruct Hinb as [E|Hinb]; [congruence|].
        specialize (Ha _ Hinb). specialize (Hb _ Hina). lia. }
      subst b. f_equal. apply IH; [assumption|].
      now apply Permutation_cons_inv in Hp.
Qed.

(** The order in which the alleles are given to [Gene] does not matter,
    whatever their number. *)
Theorem Gene_new_order_irrelevant (alleles alleles' : list Z) :
  Permutation alleles alleles' -> Gene_new alleles = Gene_new alleles'.
Proof.
  intros Hp. unfold Gene_new.
  rewrite (Permutation_length Hp).
  destruct (length alleles' =? 0)%nat; [reflexivity|].
  f_equal. apply ascending_unique; try apply sorted_Sorted.
  eapply perm_trans; [apply Permutation_sym, sorted_perm|].
  eapply perm_trans; [exact Hp|apply sorted_perm].
Qed.

Lemma allele_count_fold (f : Z -> Z) (l : list Z) (acc : dict Z Z) (k : Z) :
  dict_get (fold_left (fun d a => dict_set d a (f a)) l acc) k
  = if in_dec Z.eq_dec k l then Some (f k) else dict_get acc k.
Proof.
  revert acc. induction l as [|a l IH]; intros acc; [reflexivity|].
  simpl fold_left. rewrite IH.
  destruct (in_dec Z.eq_dec k l) as [Hin|Hnin];
    destruct (in_dec Z.eq_dec k (a :: l)) as [Hin'|Hnin'];
    try reflexivity.
  - exfalso. apply Hnin'. now right.
  - destruct Hin' as [->|Hin']; [|contradiction].
    apply dict_get_set_same.
  - apply dict_get_set_other. intros ->. apply Hnin'. now left.
Qed.

(** [allele_count()] of a gene maps exactly the alleles of the gene, each
    to the number of slots that hold it. *)
Theorem Gene_allele_count_lookup (self : Gene) (k : Z) :
  (In k self ->
   dict_get (Gene_allele_count self) k = Some (py_count k self)
   /\ 1 <= py_count k self)
  /\ (~ In k self -> dict_get (Gene_allele_count self) k = None).
Proof.
  unfold Gene_allele_count. rewrite allele_count_fold.
  destruct (in_dec Z.eq_dec k self) as [Hin|Hnin]; split; intros H;
    try contradiction; try reflexivity.
  split; [reflexivity|]. unfold py_count.
  pose proof (proj1 (count_occ_In eq_dec self k) Hin). lia.
Qed.

Lemma Genome_new_cons gt genotypes :
  Genome_new (gt :: genotypes)
  = (let? g := (let? a0 := py_index gt 0 in
                let? a1 := py_index gt 1 in Gene_new [a0; a1]) in
     let? gs := Genome_new genotypes in Ok (g :: gs)).
Proof. reflexivity. Qed.

(** [Genome] reads the first two alleles of every genotype and ignores
    the others: with two alleles or more everywhere it returns the
    ascending pairs in order, and a genotype with fewer makes it raise
    [IndexError]. *)
Theorem Genome_new_first_two (genotypes : list (list Z)) :
  (Forall (fun g => (2 <= length g)%nat) genotypes ->
   Genome_new genotypes
   = Ok (map (fun g => sorted [nth 0 g 0; nth 1 g 0]) genotypes))
  /\ (Exists (fun g => (length g < 2)%nat) genotypes ->
      Genome_new genotypes = Raise IndexError).
Proof.
  split.
  - induction 1 as [|gt genotypes Hgt _ IH]; [reflexivity|].
    rewrite Genome_new_cons, IH.
    rewrite (py_index_inside_Z gt 0 0), (py_index_inside_Z gt 1 0) by lia.
    reflexivity.
  - induction genotypes as [|gt genotypes IH]; intros Hex;
      [inversion Hex|].
    rewrite Genome_new_cons.
    destruct (Nat.lt_ge_cases (length gt) 2) as [Hshort|Hlong].
    + destruct gt as [|a0 [|a1 gt]]; simpl in Hshort; try lia; reflexivity.
    + rewrite (py_index_inside_Z gt 0 0), (py_index_inside_Z gt 1 0) by lia.
      inversion Hex as [? ? Hgt|? ? Hrest]; subst; [lia|].
      rewrite (IH Hrest). reflexivity.
Qed.

Lemma Genome_new_canonical_out (genotypes : list (list Z)) (g : Genome) :
  Genome_new genotypes = Ok g -> Forall canonical_pair g.
Proof.
  revert g. induction genotypes as [|gt genotypes IH]; intros g.
  - intros [= <-]. constructor.
  - rewrite Genome_new_cons.
    destruct (py_index gt 0) as [a0|]; [|discriminate].
    destruct (py_index gt 1) as [a1|]; [|discriminate].
    cbn [rbind]. rewrite Gene_new_pair. cbn [rbind].
    destruct (Genome_new genotypes) as [gs|]; [|discriminate].
    cbn [rbind]. intros [= <-]. constructor; [|now apply IH].
    exists a0, a1. now rewrite sorted_pair.
Qed.

(** A genome is what [Genome] builds from its own genes: construction
    from a built genome returns it unchanged; its loci hold two alleles
    in ascending order. *)
Theorem Genome_new_idempotent (genotypes : list (list Z)) (g : Genome) :
  Genome_new genotypes = Ok g ->
  Genome_new g = Ok g
  /\ length g = length genotypes
  /\ Forall (fun gene => length gene = 2%nat /\ Sorted Z.le gene) g.
Proof.
  intros Hg. pose proof (Genome_new_canonical_out _ _ Hg) as Hc.
  split; [now apply Genome_new_canonical|]. split.
  - revert g Hg Hc. induction genotypes as [|gt genotypes IH]; intros g Hg _.
    + now inversion Hg.
    + rewrite Genome_new_cons in Hg.
      destruct (let? a0 := py_index gt 0 in _) as [x|]; [|discriminate].
      cbn [rbind] in Hg.
      destruct (Genome_new genotypes) as [gs|] eqn:E; [|discriminate].
      cbn [rbind] in Hg. inversion Hg; subst. simpl. f_equal.
      apply IH; [reflexivity|]. eapply Genome_new_canonical_out; eauto.
  - eapply Forall_impl; [|exact Hc].
    intros gene (a & b & ->). split; [apply sorted_length|apply sorted_Sorted].
Qed.

(** [Gene.mate] on genes of any length: an empty gene makes
    [random.choice] raise [IndexError], the empty [self] before any draw
    and the empty [other] after the draw for [self]; otherwise the
    offspring holds one allele of [self] and one allele of [other], in
    ascending order, and two draws are used. *)
Theorem Gene_mate_one_allele_each (self other : Gene) (st : rng) :
  let st1 := snd (random_randbelow (length self) st) in
  let st2 := snd (random_randbelow (length other) st1) in
  (self = [] -> Gene_mate self other st = (Raise IndexError, st))
  /\ (self <> [] -> other = [] ->
      Gene_mate self other st = (Raise IndexError, st1))
  /\ (self <> [] -> other <> [] ->
      exists a b,
        In a self /\ In b other
        /\ Gene_mate self other st = (Ok (sorted [a; b]), st2)
        /\ Permutation [a; b] (sorted [a; b])).
Proof.
  intros st1 st2. split; [|split].
  - intros ->. reflexivity.
  - intros Hs ->.
    destruct (random_choice_run self st Hs) as (a & _ & Hra).
    unfold Gene_mate, bind. rewrite Hra. reflexivity.
  - intros Hs Ho.
    destruct (Gene_mate_run self other st Hs Ho) as (a & b & Ha & Hb & Hm).
    exists a, b. repeat split.
    + eapply nth_error_In; eauto.
    + eapply nth_error_In; eauto.
    + exact Hm.
    + apply sorted_perm.
Qed.

(** ** More on the sampler *)

(** Whatever the signs of the weights, when their total is positive
    and within the range of a float [weighted_choice] raises nothing: it
    returns a value of the collection and uses one draw. *)
Theorem weighted_choice_positive_total {A} (choices : list (A * Z)) (st : rng) :
  0 < py_sum (map snd choices) ->
  in_float_range (py_sum (map snd choices)) ->
  exists v w,
    In (v, w) choices
    /\ weighted_choice choices st = (Ok v, snd (random_random st)).
Proof.
  intros Ht Hrange.
  destruct (weighted_choice_in_range choices st (random_unit st) Ht Hrange)
    as (i & v & w & u & _ & _ & _ & Hnth & Hrun).
  exists v, w. split; [|assumption]. eapply nth_error_In; eauto.
Qed.

(** ** More on species *)

(** With fewer than two individuals, a negative total included, [mate()]
    returns at once: the population is untouched and no draw is made. *)
Theorem Species_mate_nothing_to_do (fuel : nat) (self : Species) (st : rng) :
  Species_population self < 2 ->
  Species_mate fuel (World self st) = Some (Ok tt, World self st).
Proof.
  intros Hp. unfold Species_mate. simpl live. rewrite Species_init_copy.
  now apply mate_loop_done.
Qed.

Lemma dict_get_absent {K V} `{EqDec K} (d : dict K V) k :
  ~ In k (dict_keys d) -> dict_get d k = None.
Proof.
  unfold dict_keys. induction d as [|[k' v'] d IH]; simpl; [reflexivity|].
  intros Hnin. destruct (eq_dec k' k) as [E|N].
  - exfalso. apply Hnin. now left.
  - apply IH. intros Hin. apply Hnin. now right.
Qed.

Lemma dict_set_keys_absent {K V} `{EqDec K} (d : dict K V) k v :
  ~ In k (dict_keys d) -> dict_keys (dict_set d k v) = dict_keys d ++ [k].
Proof.
  unfold dict_keys. induction d as [|[k' v'] d IH]; simpl; [reflexivity|].
  intros Hnin. destruct (eq_dec k' k) as [E|N].
  - exfalso. apply Hnin. now left.
  - simpl. f_equal. apply IH. intros Hin. apply Hnin. now right.
Qed.

(** [d[k] += n] keeps the keys in place and puts a new key last. *)
Lemma dd_iadd_keys {K} `{EqDec K} (d : dict K Z) k n :
  (In k (dict_keys d) /\ dict_keys (dd_iadd d k n) = dict_keys d)
  \/ (~ In k (dict_keys d) /\ dict_keys (dd_iadd d k n) = dict_keys d ++ [k]).
Proof.
  destruct (in_dec eq_dec k (dict_keys d)) as [Hin|Hnin].
  - left. split; [assumption|]. unfold dd_iadd, dd_getitem.
    destruct (dict_get_key d k Hin) as [v ->]. now apply dict_set_keys.
  - right. split; [assumption|]. unfold dd_iadd, dd_getitem.
    rewrite (dict_get_absent d k Hnin).
    rewrite dict_set_keys; [now apply dict_set_keys_absent|].
    rewrite dict_set_keys_absent by assumption.
    apply in_or_app. right. now left.
Qed.

Lemma mate_loop_keeps (L : nat) fuel (s : Species) (w : world) r w' :
  pool_ok L s -> pool_ok L (live w) ->
  in_float_range (Species_population s) ->
  mate_loop fuel s w = Some (r, w') ->
  pool_ok L (live w')
  /\ (NoDup (dict_keys (live w)) -> NoDup (dict_keys (live w'))).
Proof.
  revert s w. induction fuel as [|fuel IH]; intros s w Hs Hw Hrange Hrun.
  - simpl in Hrun. destruct (2 <=? Species_population s); [discriminate|].
    inversion Hrun; subst. auto.
  - destruct (Z.lt_ge_cases (Species_population s) 2) as [Hp|Hp].
    + rewrite mate_loop_done in Hrun by assumption.
      inversion Hrun; subst. auto.
    + destruct (mate_step_run L s w Hs Hp Hrange)
        as (g1 & g2 & child & st' & Hg1 & Hg2 & Hcw & Hcl & Hstep).
      rewrite (mate_loop_turn fuel s _ w _ Hp Hstep) in Hrun.
      assert (Hk : dict_keys (dd_isub (dd_isub s g1 1) g2 1) = dict_keys s).
      { rewrite dd_isub_keys; rewrite dd_isub_keys; auto. }
      assert (Hps : Species_population (dd_isub (dd_isub s g1 1) g2 1)
                    = Species_population s - 2).
      { unfold Species_population. rewrite !dd_isub_sum. lia. }
      apply IH in Hrun.
      * destruct Hrun as [Hpool Hnd]. split; [assumption|].
        intros Hnd0. apply Hnd. simpl live.
        destruct (dd_iadd_keys (live w) child 1) as [[_ ->]|[Hnin ->]];
          [assumption|].
        apply NoDup_app; [assumption|repeat constructor; intros []|].
        intros x Hx [<-|[]]. contradiction.
      * unfold pool_ok. now rewrite Hk.
      * unfold pool_ok. simpl live.
        destruct (dd_iadd_keys (live w) child 1) as [[_ ->]|[_ ->]];
          [assumption|].
        apply Forall_app. split; [assumption|]. now repeat constructor.
      * apply (in_float_range_below _ (Species_population s));
          [lia|assumption].
Qed.


Lemma grow_ge (N : Z) : 0 <= N -> N <= grow N.
Proof. intros HN. unfold grow. assert (0 <= N / 2) by (apply Z.div_pos; lia). lia. Qed.

Lemma grow_iter_ge (n : nat) (N : Z) : 0 <= N -> N <= Nat.iter n grow N.
Proof.
  intros HN. induction n as [|n IH]; simpl; [lia|].
  pose proof (grow_ge (Nat.iter n grow N)). lia.
Qed.

Lemma grow_iter_shift (n : nat) (N : Z) :
  Nat.iter n grow (grow N) = Nat.iter (S n) grow N.
Proof. induction n as [|n IH]; simpl in *; [reflexivity|]. now rewrite IH. Qed.

(** Generations compose: after [n] calls of [mate()] on a population of
    [N] individuals the total is [N] sent [n] times through
    [N + floor(N/2)], and no call raises, as long as that total stays
    within the range of a float. *)
Theorem mate_generations_population (L : nat) (n fuel : nat)
  (self : Species) (st : rng) :
  let N := Species_population self in
  pool_ok L self ->
  0 <= N ->
  in_float_range (Nat.iter n grow N) ->
  (Z.to_nat (Nat.iter n grow N / 2) <= fuel)%nat ->
  exists self' st',
    mate_generations fuel n (World self st) = Some (Ok tt, World self' st')
    /\ Species_population self' = Nat.iter n grow N
    /\ pool_ok L self'.
Proof.
  revert self st.
  induction n as [|n IH]; intros self st N Hpool HN Hrange Hfuel.
  - exists self, st. repeat split; auto.
  - assert (Hle : N <= Nat.iter n grow (grow N)).
    { pose proof (grow_ge N HN). pose proof (grow_iter_ge n (grow N)). lia. }
    rewrite <- grow_iter_shift in Hrange, Hfuel |- *.
    assert (HrN : in_float_range N).
    { apply (in_float_range_below _ (Nat.iter n grow (grow N)));
        [lia|assumption]. }
    assert (Hf1 : (Z.to_nat (N / 2) <= fuel)%nat).
    { assert (N / 2 <= Nat.iter n grow (grow N) / 2)
        by (apply Z.div_le_mono; lia).
      lia. }
    destruct (mate_loop_run L fuel self (World self st) Hpool HrN Hf1)
      as ([self1 st1] & Hrun & Hpop & _).
    destruct (mate_loop_keeps L _ self (World self st) _ _ Hpool Hpool
                HrN Hrun)
      as [Hp1 _].
    simpl live in Hpop, Hp1. fold N in Hpop.
    assert (HN1 : Species_population self1 = grow N).
    { rewrite Hpop. unfold grow.
      assert (0 <= N / 2) by (apply Z.div_pos; lia). lia. }
    destruct (IH self1 st1) as (self' & st' & Hgen & Hpop' & Hp').
    + exact Hp1.
    + rewrite HN1. pose proof (grow_ge N HN). lia.
    + now rewrite HN1.
    + now rewrite HN1.
    + exists self', st'. split; [|split; [|assumption]].
      * simpl mate_generations. unfold Species_mate. simpl live.
        rewrite Species_init_copy, Hrun. exact Hgen.
      * now rewrite Hpop', HN1.
Qed.

Lemma homozygous_loci (g : Genome) st :
  homozygous g ->
  exists st',
    mmap (fun '(s, o) => Gene_mate s o) (combine g g) st = (Ok g, st').
Proof.
  intros Hh. revert st. induction Hh as [|gene g [a ->] _ IH]; intros st.
  - exists st. reflexivity.
  - destruct (Gene_mate_homozygous a a st) as [st1 Hm].
    destruct (IH st1) as [st' Hmm].
    exists st'. simpl combine. simpl mmap. unfold bind at 1. rewrite Hm.
    unfold bind at 1. rewrite Hmm. unfold ret.
    rewrite sorted_pair, Z.min_id, Z.max_id. reflexivity.
Qed.

Lemma homozygous_canonical (g : Genome) :
  homozygous g -> Forall canonical_pair g.
Proof.
  intros Hh. eapply Forall_impl; [|exact Hh].
  intros gene [a ->]. exists a, a.
  now rewrite sorted_pair, Z.min_id, Z.max_id.
Qed.

(** A homozygous genome mated with itself gives itself. *)
Lemma Genome_mate_homozygous (g : Genome) st :
  homozygous g -> exists st', Genome_mate g g st = (Ok g, st').
Proof.
  intros Hh. destruct (homozygous_loci g st Hh) as [st' Hmm].
  exists st'. unfold Genome_mate. rewrite Nat.eqb_refl.
  change (negb true) with false. unfold bind. cbv beta iota.
  rewrite Hmm. unfold lift.
  now rewrite Genome_new_canonical by now apply homozygous_canonical.
Qed.

Lemma single_isub (g : Genome) (k : Z) : dd_isub [(g, k)] g 1 = [(g, k - 1)].
Proof.
  unfold dd_isub, dd_getitem. simpl.
  destruct (eq_dec g g) as [_|N]; [|contradiction]. simpl.
  destruct (eq_dec g g) as [_|N]; [reflexivity|contradiction].
Qed.

Lemma single_iadd (g : Genome) (m : Z) : dd_iadd [(g, m)] g 1 = [(g, m + 1)].
Proof.
  unfold dd_iadd, dd_getitem. simpl.
  destruct (eq_dec g g) as [_|N]; [|contradiction]. simpl.
  destruct (eq_dec g g) as [_|N]; [reflexivity|contradiction].
Qed.

Lemma single_draw (g : Genome) (k : Z) st :
  0 < k -> in_float_range k ->
  weighted_choice (dict_items [(g, k)]) st = (Ok g, snd (random_random st)).
Proof.
  intros Hk Hrange.
  assert (Hpop : Species_population [(g, k)] = k).
  { unfold Species_population, dict_values. simpl. rewrite py_sum_cons.
    change (py_sum []) with 0. lia. }
  destruct (draw_parent [(g, k)] st) as (g' & Hin & Hrun);
    [rewrite Hpop; lia|now rewrite Hpop|].
  destruct Hin as [<-|[]]. exact Hrun.
Qed.

Lemma pure_breeding_loop (g : Genome) fuel (k m : Z) st :
  homozygous g ->
  in_float_range k ->
  (Z.to_nat (k / 2) <= fuel)%nat ->
  exists st',
    mate_loop fuel [(g, k)] (World [(g, m)] st)
    = Some (Ok tt, World [(g, m + Z.of_nat (Z.to_nat (k / 2)))] st').
Proof.
  intros Hh. revert k m st.
  assert (Hpop : forall k, Species_population [(g, k)] = k).
  { intros k. unfold Species_population, dict_values. simpl.
    rewrite py_sum_cons. change (py_sum []) with 0. lia. }
  induction fuel as [|fuel IH]; intros k m st Hrange Hfuel.
  - assert (Hk : k < 2).
    { destruct (Z.lt_ge_cases k 2) as [|Hge]; [assumption|].
      assert (1 <= k / 2) by (apply Z.div_le_lower_bound; lia). lia. }
    exists st. rewrite mate_loop_done by (rewrite Hpop; lia).
    replace (Z.to_nat (k / 2)) with 0%nat by lia.
    simpl Z.of_nat. now rewrite Z.add_0_r.
  - destruct (Z.lt_ge_cases k 2) as [Hk|Hk].
    + exists st. rewrite mate_loop_done by (rewrite Hpop; lia).
      assert (k / 2 < 1) by (apply Z.div_lt_upper_bound; lia).
      replace (Z.to_nat (k / 2)) with 0%nat by lia.
      simpl Z.of_nat. now rewrite Z.add_0_r.
    + set (st1 := snd (random_random st)).
      set (st2 := snd (random_random st1)).
      destruct (Genome_mate_homozygous g st2 Hh) as [st3 Hm].
      assert (Hstep : mate_step [(g, k)] (World [(g, m)] st)
                      = (Ok [(g, k - 1 - 1)], World [(g, m + 1)] st3)).
      { rewrite <- !single_isub, <- single_iadd.
        apply (mate_step_eq [(g, k)] (World [(g, m)] st) g st1 g st2 g st3).
        - apply single_draw; [lia|assumption].
        - rewrite single_isub. apply single_draw; [lia|].
          apply (in_float_range_below _ k); [lia|assumption].
        - exact Hm. }
      assert (Hhalf : (k - 1 - 1) / 2 = k / 2 - 1).
      { replace (k - 1 - 1) with (k + (-1) * 2) by lia.
        rewrite Z.div_add by lia. lia. }
      assert (Hpos : 1 <= k / 2) by (apply Z.div_le_lower_bound; lia).
      destruct (IH (k - 1 - 1) (m + 1) st3) as [st' Hrun].
      { apply (in_float_range_below _ k); [lia|assumption]. }
      { rewrite Hhalf. lia. }
      exists st'.
      assert (H2 : 2 <= Species_population [(g, k)]) by (rewrite Hpop; lia).
      rewrite (mate_loop_turn fuel _ _ _ _ H2 Hstep).
      rewrite Hrun, Hhalf.
      replace (m + 1 + Z.of_nat (Z.to_nat (k / 2 - 1)))
        with (m + Z.of_nat (Z.to_nat (k / 2))) by lia.
      reflexivity.
Qed.

(** A species of a single homozygous genome breeds true: whatever the
    draws, [mate()] on [n] individuals of it, [n] within the range of a
    float, leaves [n + floor(n/2)] individuals of the same genome and
    nothing else. *)
Theorem Species_mate_breeds_true (g : Genome) (n : Z) (st : rng) :
  homozygous g ->
  0 <= n ->
  in_float_range n ->
  exists st',
    forall fuel, (Z.to_nat (n / 2) <= fuel)%nat ->
      Species_mate fuel (World [(g, n)] st)
      = Some (Ok tt, World [(g, n + n / 2)] st').
Proof.
  intros Hh Hn Hrange.
  destruct (pure_breeding_loop g (Z.to_nat (n / 2)) n n st Hh Hrange
              (Nat.le_refl _))
    as [st' Hrun].
  exists st'. intros fuel Hfuel.
  unfold Species_mate. simpl live. rewrite Species_init_copy.
  apply (mate_loop_fuel_mono _ _ _ _ _ Hrun) in Hfuel.
  rewrite Hfuel.
  assert (0 <= n / 2) by (apply Z.div_pos; lia).
  replace (Z.of_nat (Z.to_nat (n / 2))) with (n / 2) by lia.
  reflexivity.
Qed.

(** ** Allele counts *)

Lemma dd_read_count_of {K} `{EqDec K} (d : dict K Z) k :
  fst (dd_getitem 0 d k) = count_of d k.
Proof. unfold dd_getitem, count_of. now destruct (dict_get d k). Qed.

Lemma count_of_iadd {K} `{EqDec K} (d : dict K Z) k n a :
  count_of (dd_iadd d k n) a
  = count_of d a + (if eq_dec k a then n else 0).
Proof.
  unfold count_of, dd_iadd, dd_getitem.
  destruct (eq_dec k a) as [->|Hne].
  - destruct (dict_get d a) as [v|] eqn:E;
      rewrite dict_get_set_same; lia.
  - destruct (dict_get d k) as [v|] eqn:E;
      rewrite ?dict_get_set_other by assumption; lia.
Qed.

Lemma fold_iadd_sum {K} `{EqDec K} (f : K -> Z) (ks : list K) (acc : dict K Z) :
  py_sum (dict_values (fold_left (fun d k => dd_iadd d k (f k)) ks acc))
  = py_sum (dict_values acc) + py_sum (map f ks).
Proof.
  revert acc. induction ks as [|k ks IH]; intros acc; simpl.
  - change (py_sum []) with 0. lia.
  - rewrite IH, dd_iadd_sum, py_sum_cons. lia.
Qed.

Lemma fold_iadd_count {K} `{EqDec K} (f : K -> Z) (ks : list K)
  (acc : dict K Z) (a : K) :
  NoDup ks ->
  count_of (fold_left (fun d k => dd_iadd d k (f k)) ks acc) a
  = count_of acc a + (if in_dec eq_dec a ks then f a else 0).
Proof.
  intros Hnd. revert acc.
  induction Hnd as [|k ks Hnin Hnd IH]; intros acc; simpl fold_left.
  - simpl. lia.
  - rewrite IH, count_of_iadd.
    destruct (eq_dec k a) as [->|Hne].
    + destruct (in_dec eq_dec a ks); [contradiction|].
      destruct (in_dec eq_dec a (a :: ks)) as [|N]; [lia|].
      exfalso. apply N. now left.
    + destruct (in_dec eq_dec a ks) as [Hin|Hnin'];
        destruct (in_dec eq_dec a (k :: ks)) as [Hin2|Hnin2]; try lia.
      * exfalso. apply Hnin2. now right.
      * destruct Hin2; [congruence|contradiction].
Qed.

Lemma dict_set_absent {K V} `{EqDec K} (d : dict K V) k v :
  ~ In k (dict_keys d) -> dict_set d k v = d ++ [(k, v)].
Proof.
  unfold dict_keys. induction d as [|[k' v'] d IH]; simpl; [reflexivity|].
  intros Hnin. destruct (eq_dec k' k) as [E|N].
  - exfalso. apply Hnin. now left.
  - f_equal. apply IH. intros Hin. apply Hnin. now right.
Qed.

(** A comprehension over distinct keys builds its entries in order. *)
Lemma dict_of_entries {K V} `{EqDec K} (l acc : dict K V) :
  NoDup (dict_keys l) ->
  (forall k, In k (dict_keys l) -> ~ In k (dict_keys acc)) ->
  fold_left (fun d kv => dict_set d (fst kv) (snd kv)) l acc = acc ++ l.
Proof.
  unfold dict_keys. revert acc.
  induction l as [|[k v] l IH]; intros acc Hnd Hfresh; simpl.
  - now rewrite app_nil_r.
  - inversion Hnd as [|? ? Hnin Hnd']; subst.
    rewrite dict_set_absent by (apply Hfresh; now left).
    rewrite IH; [now rewrite <- app_assoc|assumption|].
    intros k' Hk'. rewrite map_app. intros Hin.
    apply in_app_or in Hin as [Hin|Hin].
    + apply (Hfresh k'); [now right|assumption].
    + destruct Hin as [<-|[]]. contradiction.
Qed.

Lemma dict_get_tabulate {K V} `{EqDec K} (F : K -> V) (ks : list K) k :
  In k ks -> dict_get (map (fun g => (g, F g)) ks) k = Some (F k).
Proof.
  induction ks as [|k' ks IH]; simpl; [contradiction|].
  intros Hin. destruct (eq_dec k' k) as [->|Hne]; [reflexivity|].
  apply IH. destruct Hin; [contradiction|assumption].
Qed.

Lemma count_of_keys {K} `{EqDec K} (d : dict K Z) :
  NoDup (dict_keys d) -> map (count_of d) (dict_keys d) = dict_values d.
Proof.
  unfold dict_keys, dict_values, count_of.
  induction d as [|[k v] d IH]; intros Hnd; [reflexivity|].
  inversion Hnd as [|? ? Hnin Hnd']; subst. simpl.
  destruct (eq_dec k k) as [_|N]; [|contradiction]. f_equal.
  rewrite <- (IH Hnd'). apply map_ext_in. intros k' Hk'.
  destruct (eq_dec k k') as [->|_]; [contradiction|reflexivity].
Qed.

(** The entries of [alleles_by_genome] when the locus is in range. *)
Lemma allele_entries (ks : list Genome) (i : nat) :
  Forall (fun g => (i < length g)%nat) ks ->
  rmap (fun g => let? a := py_index (Genome_allele_count g) (Z.of_nat i) in
                 Ok (g, a)) ks
  = Ok (map (fun g => (g, Gene_allele_count (nth i g []))) ks).
Proof.
  induction 1 as [|g ks Hg _ IH]; [reflexivity|].
  rewrite rmap_cons, IH. unfold Genome_allele_count at 1.
  rewrite (py_index_inside _ i (Gene_allele_count []))
    by (now rewrite length_map).
  now rewrite map_nth.
Qed.

Lemma allele_counts_run (self : Species) (i : nat) :
  Forall (fun g => (i < length g)%nat) (dict_keys self) ->
  NoDup (dict_keys self) ->
  Species_allele_counts self (Z.of_nat i)
  = Ok (fold_left (allele_sum_step self (alleles_at self i))
                  (dict_keys self) []).
Proof.
  intros Hr Hnd. unfold Species_allele_counts.
  rewrite allele_entries by assumption. cbn [rbind].
  fold (alleles_at self i). set (abg := alleles_at self i).
  assert (Hk : dict_keys abg = dict_keys self).
  { unfold abg, alleles_at, dict_keys. rewrite map_map. simpl. apply map_id. }
  rewrite (dict_of_entries abg []).
  - cbn [app]. now rewrite Hk.
  - now rewrite Hk.
  - intros k _ [].
Qed.

Lemma allele_sum_step_eq (self : Species) abg acc (g : Genome) alleles :
  dict_get abg g = Some alleles ->
  allele_sum_step self abg acc g
  = fold_left (fun d al => dd_iadd d al (count_of alleles al * count_of self g))
              (dict_keys alleles) acc.
Proof.
  intros Hg. unfold allele_sum_step. rewrite Hg, dd_read_count_of.
  reflexivity.
Qed.

Lemma gene_count_of (gene : Gene) (a : Z) :
  count_of (Gene_allele_count gene) a = py_count a gene.
Proof.
  unfold count_of, Gene_allele_count. rewrite allele_count_fold.
  destruct (in_dec Z.eq_dec a gene) as [Hin|Hnin]; [reflexivity|].
  unfold py_count. simpl.
  now rewrite (proj1 (count_occ_not_In eq_dec gene a) Hnin).
Qed.

Lemma dict_set_NoDup {K V} `{EqDec K} (d : dict K V) k v :
  NoDup (dict_keys d) -> NoDup (dict_keys (dict_set d k v)).
Proof.
  intros Hnd. destruct (in_dec eq_dec k (dict_keys d)) as [Hin|Hnin].
  - now rewrite dict_set_keys.
  - rewrite dict_set_keys_absent by assumption.
    apply NoDup_app; [assumption|repeat constructor; intros []|].
    intros x Hx [<-|[]]. contradiction.
Qed.

Lemma gene_allele_keys_NoDup (gene : Gene) :
  NoDup (dict_keys (Gene_allele_count gene)).
Proof.
  unfold Gene_allele_count.
  assert (G : forall l (acc : dict Z Z),
             NoDup (dict_keys acc) ->
             NoDup (dict_keys (fold_left
                      (fun d k => dict_set d k (py_count k gene)) l acc))).
  { induction l as [|a l IH]; intros acc Hacc; [assumption|].
    simpl. apply IH. now apply dict_set_NoDup. }
  apply G. constructor.
Qed.

Lemma allele_step_count (self : Species) abg acc (g : Genome) (gene : Gene) a :
  dict_get abg g = Some (Gene_allele_count gene) ->
  count_of (allele_sum_step self abg acc g) a
  = count_of acc a + py_count a gene * count_of self g.
Proof.
  intros Hg. rewrite (allele_sum_step_eq _ _ _ _ _ Hg).
  rewrite (fold_iadd_count
             (fun al => count_of (Gene_allele_count gene) al * count_of self g))
    by apply gene_allele_keys_NoDup.
  destruct (in_dec eq_dec a (dict_keys (Gene_allele_count gene))) as [Hin|Hnin].
  - now rewrite gene_count_of.
  - rewrite <- gene_count_of. unfold count_of at 3.
    rewrite (dict_get_absent _ _ Hnin). lia.
Qed.

Lemma pair_allele_total (a b c : Z) :
  py_sum (map (fun al => count_of (Gene_allele_count [a; b]) al * c)
              (dict_keys (Gene_allele_count [a; b])))
  = 2 * c.
Proof.
  assert (E : Gene_allele_count [a; b]
              = if Z.eq_dec a b then [(a, 2)] else [(a, 1); (b, 1)]).
  { unfold Gene_allele_count, py_count. simpl.
    unfold eq_dec, Z_EqDec.
    destruct (Z.eq_dec a a) as [_|N]; [|contradiction].
    destruct (Z.eq_dec b b) as [_|N]; [|contradiction].
    destruct (Z.eq_dec a b) as [->|Hab].
    - destruct (Z.eq_dec b b) as [_|N]; [reflexivity|contradiction].
    - destruct (Z.eq_dec b a) as [->|_]; [contradiction|reflexivity]. }
  rewrite E. remember (2 * c) as t eqn:Et.
  destruct (Z.eq_dec a b) as [->|Hab].
  - unfold count_of. simpl. unfold eq_dec, Z_EqDec.
    destruct (Z.eq_dec b b) as [_|N]; [|contradiction].
    rewrite py_sum_cons. change (py_sum []) with 0. lia.
  - unfold count_of. simpl. unfold eq_dec, Z_EqDec.
    destruct (Z.eq_dec a a) as [_|N]; [|contradiction].
    destruct (Z.eq_dec a b) as [|_]; [contradiction|].
    destruct (Z.eq_dec b b) as [_|N]; [|contradiction].
    rewrite !py_sum_cons. change (py_sum []) with 0. lia.
Qed.

Lemma allele_step_total (self : Species) abg acc (g : Genome) (gene : Gene) :
  dict_get abg g = Some (Gene_allele_count gene) ->
  length gene = 2%nat ->
  py_sum (dict_values (allele_sum_step self abg acc g))
  = py_sum (dict_values acc) + 2 * count_of self g.
Proof.
  intros Hg Hlen. rewrite (allele_sum_step_eq _ _ _ _ _ Hg).
  rewrite (fold_iadd_sum
             (fun al => count_of (Gene_allele_count gene) al * count_of self g)).
  destruct gene as [|a [|b [|? ?]]]; try discriminate.
  now rewrite pair_allele_total.
Qed.

Lemma keyed_values {K B} `{EqDec K} (d : dict K Z) (h : K -> Z -> B) :
  NoDup (dict_keys d) ->
  map (fun k => h k (count_of d k)) (dict_keys d)
  = map (fun kv => h (fst kv) (snd kv)) d.
Proof.
  unfold dict_keys, count_of.
  induction d as [|[k v] d IH]; intros Hnd; [reflexivity|].
  inversion Hnd as [|? ? Hnin Hnd']; subst. simpl.
  destruct (eq_dec k k) as [_|N]; [|contradiction]. f_equal.
  rewrite <- (IH Hnd'). apply map_ext_in. intros k' Hk'.
  destruct (eq_dec k k') as [->|_]; [contradiction|reflexivity].
Qed.

Lemma allele_fold_count (self : Species) (i : nat) (a : Z) (ks : list Genome) acc :
  incl ks (dict_keys self) ->
  count_of (fold_left (allele_sum_step self (alleles_at self i)) ks acc) a
  = count_of acc a
    + py_sum (map (fun g => py_count a (nth i g []) * count_of self g) ks).
Proof.
  set (abg := alleles_at self i).
  set (F := fun g : Genome => Gene_allele_count (nth i g [])).
  revert acc. induction ks as [|g ks IH]; intros acc Hincl.
  - simpl. change (py_sum []) with 0. lia.
  - simpl fold_left. rewrite IH by (intros x Hx; apply Hincl; now right).
    rewrite (allele_step_count self abg acc g (nth i g [])).
    + simpl map. rewrite py_sum_cons. symmetry. apply Z.add_assoc.
    + unfold abg, alleles_at. apply (dict_get_tabulate F). apply Hincl. now left.
Qed.

Lemma allele_fold_total (self : Species) (i : nat) (ks : list Genome) acc :
  incl ks (dict_keys self) ->
  Forall (fun g => length (nth i g []) = 2%nat) ks ->
  py_sum (dict_values (fold_left (allele_sum_step self (alleles_at self i))
                                 ks acc))
  = py_sum (dict_values acc) + 2 * py_sum (map (count_of self) ks).
Proof.
  set (abg := alleles_at self i).
  set (F := fun g : Genome => Gene_allele_count (nth i g [])).
  revert acc. induction ks as [|g ks IH]; intros acc Hincl Hwf.
  - simpl. change (py_sum []) with 0. lia.
  - inversion Hwf as [|? ? Hg Hks]; subst.
    simpl fold_left. rewrite IH; [|intros x Hx; apply Hincl; now right|assumption].
    rewrite (allele_step_total self abg acc g (nth i g [])).
    + simpl map. rewrite py_sum_cons. lia.
    + unfold abg, alleles_at. apply (dict_get_tabulate F). apply Hincl. now left.
    + assumption.
Qed.

Lemma index_in_range (i n m : nat) : n = m -> (i < m)%nat -> (i < n)%nat.
Proof. intros -> H. exact H. Qed.

(** [allele_counts(locus)] counts, for every allele, the copies that the
    individuals carry at the locus: the sum over the genomes of the
    occurrences of the allele in the gene at the locus times the count of
    the genome.  The genes may have any number of alleles. *)
Theorem Species_allele_counts_copies (self : Species) (i : nat) (a : Z) :
  NoDup (dict_keys self) ->
  Forall (fun g => (i < length g)%nat) (dict_keys self) ->
  exists counts,
    Species_allele_counts self (Z.of_nat i) = Ok counts
    /\ count_of counts a = allele_copies self i a.
Proof.
  intros Hnd Hr. eexists. split; [now apply allele_counts_run|].
  rewrite allele_fold_count by apply incl_refl.
  unfold allele_copies.
  rewrite (keyed_values self (fun g c => py_count a (nth i g []) * c) Hnd).
  reflexivity.
Qed.

(** On well formed genomes the counts of [allele_counts(locus)] add up to
    two alleles per individual. *)
Theorem Species_allele_counts_total (L : nat) (self : Species) (i : nat) :
  pool_ok L self ->
  NoDup (dict_keys self) ->
  (i < L)%nat ->
  exists counts,
    Species_allele_counts self (Z.of_nat i) = Ok counts
    /\ py_sum (dict_values counts) = 2 * Species_population self.
Proof.
  intros Hpool Hnd Hi. unfold pool_ok in Hpool.
  assert (Hr : Forall (fun g => (i < length g)%nat) (dict_keys self)).
  { eapply Forall_impl; [|exact Hpool]. intros g [_ ->]. exact Hi. }
  assert (Hwf : Forall (fun g => length (nth i g []) = 2%nat) (dict_keys self)).
  { eapply Forall_impl; [|exact Hpool]. intros g [Hg Hl].
    unfold wf_Genome in Hg. rewrite Forall_forall in Hg.
    apply Hg. apply nth_In. exact (index_in_range _ _ _ Hl Hi). }
  eexists. split; [now apply allele_counts_run|].
  rewrite allele_fold_total by (try apply incl_refl; assumption).
  rewrite count_of_keys by assumption.
  change (py_sum (dict_values [])) with 0. unfold Species_population. lia.
Qed.

(** The locus of [allele_counts] is a Python index: with [L] loci in
    every genome, a locus from [-L] to [-1] counts from the last locus, a
    locus outside [-L .. L-1] raises [IndexError] unless the species has
    no entry, in which case the result is empty for any locus. *)
Theorem Species_allele_counts_locus (L : nat) (self : Species) (locus : Z) :
  Forall (fun g => length g = L) (dict_keys self) ->
  (self = [] -> Species_allele_counts self locus = Ok [])
  /\ (self <> [] -> locus < - Z.of_nat L \/ Z.of_nat L <= locus ->
      Species_allele_counts self locus = Raise IndexError)
  /\ (- Z.of_nat L <= locus < 0 ->
      Species_allele_counts self locus
      = Species_allele_counts self (locus + Z.of_nat L)).
Proof.
  intros HL. split; [|split].
  - intros ->. reflexivity.
  - intros Hne Hout. destruct self as [|[g c] self]; [contradiction|].
    unfold dict_keys in HL. simpl in HL. apply Forall_inv in HL.
    unfold Species_allele_counts, dict_keys. simpl map. rewrite rmap_cons.
    rewrite py_index_outside; [reflexivity|].
    unfold Genome_allele_count. now rewrite length_map, HL.
  - intros Hneg. unfold Species_allele_counts.
    assert (E : rmap (fun g => let? a := py_index (Genome_allele_count g) locus in
                               Ok (g, a)) (dict_keys self)
                = rmap (fun g => let? a := py_index (Genome_allele_count g)
                                             (locus + Z.of_nat L) in
                                 Ok (g, a)) (dict_keys self)).
    { induction HL as [|g ks Hg _ IH]; [reflexivity|].
      rewrite !rmap_cons, IH.
      assert (Hi : py_index (Genome_allele_count g) locus
                   = py_index (Genome_allele_count g) (locus + Z.of_nat L)).
      { rewrite (py_index_negative _ locus);
          unfold Genome_allele_count; rewrite length_map, Hg;
          [reflexivity|assumption]. }
      now rewrite Hi. }
    now rewrite E.
Qed.

End Random.

(** ** The floats at concrete inputs *)

(** [1/3] and [3/6] as Python computes them. *)
Example float_quotients :
  py_truediv 1 (Finite (int_units 3)) = Ok third
  /\ py_truediv 3 (Finite (int_units 6)) = Ok half
  /\ (float_value third == (1 # 3) - (1 # (3 * 2 ^ 54)))%Q
  /\ (float_value half == 1 # 2)%Q.
Proof. repeat apply conj; vm_compute; reflexivity. Qed.

(** Integers beyond 53 bits are rounded to the nearest float, ties to
    even, and the conversion fails from [2^1024 - 2^970] on. *)
Example float_of_int_rounds :
  float_of_int (2 ^ 53 + 1) = Ok (Finite (2 ^ 53 * unit_scale))
  /\ float_of_int (2 ^ 53 + 3) = Ok (Finite ((2 ^ 53 + 4) * unit_scale))
  /\ float_of_int (2 ^ 1024 - 2 ^ 970 - 1)
     = Ok (Finite ((2 ^ 53 - 1) * 2 ^ 971 * unit_scale))
  /\ float_of_int (2 ^ 1024 - 2 ^ 970) = Raise OverflowError
  /\ float_of_int (10 ^ 309) = Raise OverflowError.
Proof. repeat apply conj; vm_compute; reflexivity. Qed.

(** The operations agree with the standard library's specification of
    IEEE 754 doubles. *)
Example float_agrees_with_SpecFloat :
  Ok (of_spec (SFdiv 53 1024 (S754_finite false 1 0) (S754_finite false 10 0)))
  = py_truediv 1 (Finite (int_units 10))
  /\ Ok (of_spec (SFdiv 53 1024 (S754_finite true 7 0) (S754_finite false 3 0)))
     = py_truediv (-7) (Finite (int_units 3))
  /\ Ok (of_spec (SFdiv 53 1024 (S754_finite false 1 0)
                    (binary_normalize 53 1024 (2 ^ 1023) 0 false)))
     = py_truediv 1 (Finite (int_units (2 ^ 1023)))
  /\ of_spec (SFmul 53 1024 (S754_finite false 6004799503160661 (-53))
                (S754_finite false 3 0))
     = fmul (Finite (6004799503160661 * 2 ^ 1021)) (Finite (int_units 3))
  /\ Ok (of_spec (binary_normalize 53 1024 (10 ^ 300 + 12345) 0 false))
     = float_of_int (10 ^ 300 + 12345).
Proof. repeat apply conj; vm_compute; reflexivity. Qed.

(** The product of a draw with the total is rounded: the draw
    0.6666666666666666 times 3 is the float 2.0, and on the weights 2
    and 1 the second value comes back. *)
Example product_rounds_up :
  let draw := Finite (6004799503160661 * 2 ^ 1021) in
  fmul draw (Finite (int_units 3)) = Finite (2 * unit_scale)
  /\ bisect [2; 3] (Finite (2 * unit_scale)) = 1%nat
  /\ weighted_choice nat (fun n => (draw, S n)) [(1, 2); (2, 1)] 0%nat
     = (Ok 2, 1%nat).
Proof. repeat apply conj; vm_compute; reflexivity. Qed.

(** ** The model at concrete inputs *)

Lemma counter_random_unit :
  forall n, unit_draw (fst (counter_random n)).
Proof.
  intros n. unfold counter_random. cbn [fst].
  assert (H : (n mod 8 < 8)%nat) by (apply Nat.mod_upper_bound; lia).
  assert (E : unit_scale = 8 * 2 ^ 1071) by reflexivity.
  assert (P : 0 < 2 ^ 1071) by (apply Z.pow_pos_nonneg; lia).
  assert (B : 8 < 2 ^ 53) by reflexivity.
  exists (Z.of_nat (n mod 8) * 2 ^ 1071). split; [reflexivity|]. split.
  - exists (Z.of_nat (n mod 8)), 1071. split; [reflexivity|]. lia.
  - rewrite E. generalize dependent (2 ^ 1071). intros p _ Pp. nia.
Qed.

Lemma counter_randbelow_lt :
  forall k n, (0 < k)%nat -> (fst (counter_randbelow k n) < k)%nat.
Proof.
  intros k n Hk. unfold counter_randbelow. cbn [fst].
  apply Nat.mod_upper_bound. lia.
Qed.

(** C1 fails on the code: a total beyond the range of a float makes the
    first draw raise [OverflowError]; two genomes that differ in their
    number of loci make [Genome.mate] fail its assertion; and a negative
    total [N] is left as it is, which is not [N + floor(N/2)]. *)
Lemma Species_mate_counterexample :
  (let self := [(genome1, 10 ^ 309)] in
   Species_mate nat counter_random counter_randbelow 1 (World nat self 0%nat)
   = Some (Raise OverflowError, World nat self 1%nat))
  /\ (let self := [([[1; 1]], 1); ([[1; 1]; [2; 2]], 1)] in
      exists w',
        Species_mate nat counter_random counter_randbelow 1
          (World nat self 0%nat)
        = Some (Raise AssertionError, w'))
  /\ (let self := [(genome1, -2)] in
      Species_population self = -2
      /\ -2 + -2 / 2 = -3
      /\ Species_mate nat counter_random counter_randbelow 5
           (World nat self 0%nat)
         = Some (Ok tt, World nat self 0%nat)).
Proof.
  split; [vm_compute; reflexivity|]. split.
  - eexists. vm_compute. reflexivity.
  - repeat apply conj; vm_compute; reflexivity.
Qed.

(** C1 on three [Genome((1,1))] and two [Genome((2,2))]: five individuals
    become seven. *)
Lemma Species_mate_growth_witness :
  let self := [(genome1, 3); (genome2, 2)] in
  pool_ok 1 self
  /\ 0 <= Species_population self
  /\ in_float_range (Species_population self)
  /\ exists self' st',
       (forall fuel, (2 <= fuel)%nat ->
          Species_mate nat counter_random counter_randbelow fuel
            (World nat self 0%nat)
          = Some (Ok tt, World nat self' st'))
       /\ Species_population self' = 7
       /\ (forall g c, dict_get self g = Some c ->
                       exists c', dict_get self' g = Some c' /\ c <= c').
Proof.
  intros self.
  assert (Hpool : pool_ok 1 self) by (repeat constructor).
  assert (HN : 0 <= Species_population self) by (vm_compute; discriminate).
  assert (Hr : in_float_range (Species_population self))
    by (vm_compute; reflexivity).
  split; [exact Hpool|]. split; [exact HN|]. split; [exact Hr|].
  exact (Species_mate_growth nat counter_random counter_randbelow
           counter_randbelow_lt counter_random_unit 1 self 0%nat Hpool HN Hr).
Defined.

(** C2 with the counter as generator. *)
Lemma test_2genotype_2allele_witness :
  (forall n st, (0 < n)%nat -> (fst (counter_randbelow n st) < n)%nat)
  /\ (forall st, unit_draw (fst (counter_random st)))
  /\ exists self' st' freqs,
       (forall fuel, (1 <= fuel)%nat ->
          Species_mate nat counter_random counter_randbelow fuel
            (World nat sp0 0%nat)
          = Some (Ok tt, World nat self' st'))
       /\ self' = [(genome1, 1); (genome2, 1); (genome12, 1)]
       /\ Species_population self' = 3
       /\ Species_genome_frequencies self' = Ok freqs
       /\ dict_equal freqs
            [(genome1, third); (genome12, third); (genome2, third)]
       /\ Species_allele_frequencies self' 0 = Ok [(1, half); (2, half)]
       /\ py_truediv 1 (Finite (int_units 3)) = Ok third
       /\ (float_value third == (1 # 3) - (1 # (3 * 2 ^ 54)))%Q
       /\ (float_value half == 1 # 2)%Q.
Proof.
  split; [exact counter_randbelow_lt|]. split; [exact counter_random_unit|].
  exact (test_2genotype_2allele nat counter_random counter_randbelow
           counter_randbelow_lt counter_random_unit 0%nat).
Defined.


(** C4 fails on the code: with a positive weight next to a negative one
    of the same size the search runs past the last value, and with a
    weight beyond the range of a float the product raises
    [OverflowError]; in both a weight is positive. *)
Lemma weighted_choice_counterexample :
  (let choices := [(1, 5); (2, -5)] in
   Exists (fun w => 0 < w) (map snd choices)
   /\ weighted_choice nat counter_random choices 0%nat
      = (Raise IndexError, 1%nat))
  /\ (let choices := [(1, 10 ^ 309)] in
      Exists (fun w => 0 < w) (map snd choices)
      /\ weighted_choice nat counter_random choices 0%nat
         = (Raise OverflowError, 1%nat)).
Proof.
  split; (split; [left; reflexivity|vm_compute; reflexivity]).
Qed.

(** C4 on the weights 0, 3, 2. *)
Lemma weighted_choice_fails_iff_witness :
  let choices := [(10, 0); (20, 3); (30, 2)] in
  Forall (fun w => 0 <= w) (map snd choices)
  /\ unit_draw (fst (counter_random 5))
  /\ (failed (fst (weighted_choice nat counter_random choices 5%nat))
      <-> choices = [] \/ Forall (fun w => w = 0) (map snd choices)
          \/ ~ in_float_range (py_sum (map snd choices)))
  /\ (Exists (fun w => 0 < w) (map snd choices) ->
      in_float_range (py_sum (map snd choices)) ->
      exists v, fst (weighted_choice nat counter_random choices 5%nat) = Ok v
                /\ In v (map fst choices)).
Proof.
  intros choices.
  assert (H1 : Forall (fun w => 0 <= w) (map snd choices))
    by (repeat constructor; discriminate).
  assert (H2 : unit_draw (fst (counter_random 5)))
    by apply counter_random_unit.
  split; [exact H1|]. split; [exact H2|].
  destruct (weighted_choice_fails_iff nat counter_random choices 5%nat H1 H2)
    as (Hiff & _ & _ & _ & Hok).
  split; assumption.
Defined.

(** C6 on the genes (1, 2) and (3, 4). *)
Lemma Gene_mate_offspring_witness :
  (forall n st, (0 < n)%nat -> (fst (counter_randbelow n st) < n)%nat)
  /\ In (fst (Gene_mate nat counter_randbelow [1; 2] [3; 4] 0%nat))
        [Gene_new [1; 3]; Gene_new [1; 4]; Gene_new [2; 3]; Gene_new [2; 4]]
  /\ Gene_mate_dist [1; 2] [3; 4]
     = [(Ok [1; 3], 1 # 4); (Ok [1; 4], 1 # 4);
        (Ok [2; 3], 1 # 4); (Ok [2; 4], 1 # 4)].
Proof.
  split; [exact counter_randbelow_lt|].
  destruct (Gene_mate_offspring nat counter_randbelow counter_randbelow_lt
              1 2 3 4 0%nat) as (_ & Hin & Hdist & _).
  split; [exact Hin|exact Hdist].
Defined.

(** C7 on two genomes of two loci. *)
Lemma Genome_mate_loci_witness :
  let self := [[1; 2]; [3; 4]] in
  let other := [[5; 6]; [7; 8]] in
  wf_Genome self /\ wf_Genome other /\ length self = length other
  /\ exists child st',
       Genome_mate nat counter_randbelow self other 1%nat = (Ok child, st')
       /\ length child = length self
       /\ loci_mated nat counter_randbelow self other 1%nat child st'.
Proof.
  intros self other.
  assert (Hs : wf_Genome self) by (repeat constructor).
  assert (Ho : wf_Genome other) by (repeat constructor).
  repeat (split; [first [assumption | reflexivity]|]).
  apply (proj2 (Genome_mate_loci nat counter_randbelow counter_randbelow_lt
                  self other 1%nat) Hs Ho).
  reflexivity.
Defined.

(** C10 on three alleles. *)
Lemma Gene_new_any_arity_witness :
  [3; 1; 2] <> []
  /\ exists g,
       Gene_new [3; 1; 2] = Ok g
       /\ g = sorted [3; 1; 2]
       /\ Sorted Z.le g
       /\ Permutation [3; 1; 2] g
       /\ length g = length [3; 1; 2]
       /\ Gene_new [] = Raise AssertionError.
Proof.
  assert (H : [3; 1; 2] <> []) by discriminate.
  split; [exact H|]. exact (Gene_new_any_arity [3; 1; 2] H).
Defined.

(** C8 fails on the code: a negative count is accepted, and so are
    genomes that differ in their number of loci. *)
Lemma Species_init_accepts_invalid :
  (let d := [(OGenome genome1, -1)] in
   (exists k c, In (k, c) d /\ c < 0)
   /\ Species_init d = Ok [(genome1, -1)])
  /\ (let d := [(OGenome [[1; 1]], 1); (OGenome [[1; 1]; [2; 2]], 1)] in
      Species_init d = Ok [([[1; 1]], 1); ([[1; 1]; [2; 2]], 1)]).
Proof.
  split.
  - split; [|reflexivity].
    exists (OGenome genome1), (-1). split; [now left|reflexivity].
  - reflexivity.
Qed.


(** ** The further properties at concrete inputs *)

Lemma sample_keys_distinct : NoDup (dict_keys [(genome1, 3); (genome12, 2)]).
Proof.
  repeat (constructor; [simpl; intuition discriminate|]). constructor.
Qed.

Lemma sample_pool : pool_ok 1 [(genome1, 3); (genome12, 2)].
Proof. repeat constructor. Qed.

Lemma Gene_new_order_irrelevant_witness :
  Permutation [3; 1; 2] [2; 3; 1]
  /\ Gene_new [3; 1; 2] = Gene_new [2; 3; 1].
Proof.
  assert (Hp : Permutation [3; 1; 2] [2; 3; 1]).
  { eapply perm_trans; [apply perm_skip, perm_swap|apply perm_swap]. }
  split; [exact Hp|]. exact (Gene_new_order_irrelevant _ _ Hp).
Defined.

Lemma Genome_new_idempotent_witness :
  let g := [[1; 2]; [3; 4]] in
  Genome_new [[2; 1; 9]; [4; 3]] = Ok g
  /\ Genome_new g = Ok g
  /\ length g = 2%nat
  /\ Forall (fun gene => length gene = 2%nat /\ Sorted Z.le gene) g.
Proof.
  intros g.
  assert (H : Genome_new [[2; 1; 9]; [4; 3]] = Ok g) by reflexivity.
  split; [exact H|]. exact (Genome_new_idempotent _ _ H).
Defined.

Lemma Gene_mate_one_allele_each_witness :
  (forall n st, (0 < n)%nat -> (fst (counter_randbelow n st) < n)%nat)
  /\ [1; 2; 3] <> [] /\ [4; 5] <> []
  /\ exists a b,
       In a [1; 2; 3] /\ In b [4; 5]
       /\ Gene_mate nat counter_randbelow [1; 2; 3] [4; 5] 0%nat
          = (Ok (sorted [a; b]), 2%nat)
       /\ Permutation [a; b] (sorted [a; b]).
Proof.
  assert (H1 : [1; 2; 3] <> []) by discriminate.
  assert (H2 : [4; 5] <> []) by discriminate.
  split; [exact counter_randbelow_lt|]. split; [exact H1|]. split; [exact H2|].
  exact (proj2 (proj2 (Gene_mate_one_allele_each nat counter_randbelow
                         counter_randbelow_lt [1; 2; 3] [4; 5] 0%nat)) H1 H2).
Defined.

Lemma weighted_choice_positive_total_witness :
  let choices := [(1, 5); (2, -3)] in
  0 < py_sum (map snd choices)
  /\ in_float_range (py_sum (map snd choices))
  /\ exists v w,
       In (v, w) choices
       /\ weighted_choice nat counter_random choices 3%nat
          = (Ok v, snd (counter_random 3)).
Proof.
  intros choices.
  assert (H : 0 < py_sum (map snd choices)) by reflexivity.
  assert (Hr : in_float_range (py_sum (map snd choices)))
    by (vm_compute; reflexivity).
  split; [exact H|]. split; [exact Hr|].
  exact (weighted_choice_positive_total nat counter_random counter_random_unit
           choices 3%nat H Hr).
Defined.

Lemma Species_mate_nothing_to_do_witness :
  Species_population [(genome1, 1)] < 2
  /\ Species_mate nat counter_random counter_randbelow 0
       (World nat [(genome1, 1)] 0%nat)
     = Some (Ok tt, World nat [(genome1, 1)] 0%nat).
Proof.
  assert (H : Species_population [(genome1, 1)] < 2) by reflexivity.
  split; [exact H|].
  exact (Species_mate_nothing_to_do nat counter_random counter_randbelow
           0 [(genome1, 1)] 0%nat H).
Defined.


Lemma mate_generations_population_witness :
  let self := [(genome1, 3); (genome12, 2)] in
  pool_ok 1 self /\ 0 <= Species_population self
  /\ in_float_range (Nat.iter 2 grow (Species_population self))
  /\ exists self' st',
       mate_generations nat counter_random counter_randbelow 5 2
         (World nat self 0%nat)
       = Some (Ok tt, World nat self' st')
       /\ Species_population self' = 10
       /\ pool_ok 1 self'.
Proof.
  intros self.
  assert (HN : 0 <= Species_population self) by (vm_compute; discriminate).
  assert (Hr : in_float_range (Nat.iter 2 grow (Species_population self)))
    by (vm_compute; reflexivity).
  split; [exact sample_pool|]. split; [exact HN|]. split; [exact Hr|].
  apply (mate_generations_population nat counter_random counter_randbelow
           counter_randbelow_lt counter_random_unit 1 2 5 self 0%nat
           sample_pool HN Hr).
  vm_compute. lia.
Defined.

Lemma Species_mate_breeds_true_witness :
  let g := [[1; 1]; [2; 2]] in
  homozygous g /\ 0 <= 5 /\ in_float_range 5
  /\ exists st',
       forall fuel, (2 <= fuel)%nat ->
         Species_mate nat counter_random counter_randbelow fuel
           (World nat [(g, 5)] 0%nat)
         = Some (Ok tt, World nat [(g, 7)] st').
Proof.
  intros g.
  assert (Hh : homozygous g).
  { constructor; [now exists 1|]. constructor; [now exists 2|]. constructor. }
  assert (Hn : 0 <= 5) by lia.
  assert (Hr : in_float_range 5) by (vm_compute; reflexivity).
  split; [exact Hh|]. split; [exact Hn|]. split; [exact Hr|].
  exact (Species_mate_breeds_true nat counter_random counter_randbelow
           counter_randbelow_lt counter_random_unit g 5 0%nat Hh Hn Hr).
Defined.

Lemma sample_locus_in_range :
  Forall (fun g : Genome => (0 < length g)%nat)
         (dict_keys [(genome1, 3); (genome12, 2)]).
Proof. repeat constructor. Qed.

Lemma Species_allele_counts_copies_witness :
  let self := [(genome1, 3); (genome12, 2)] in
  NoDup (dict_keys self)
  /\ Forall (fun g : Genome => (0 < length g)%nat) (dict_keys self)
  /\ exists counts,
       Species_allele_counts self 0 = Ok counts
       /\ count_of counts 1 = 8.
Proof.
  intros self.
  split; [exact sample_keys_distinct|]. split; [exact sample_locus_in_range|].
  exact (Species_allele_counts_copies self 0 1 sample_keys_distinct
           sample_locus_in_range).
Defined.

Lemma Species_allele_counts_total_witness :
  let self := [(genome1, 3); (genome12, 2)] in
  pool_ok 1 self /\ NoDup (dict_keys self) /\ (0 < 1)%nat
  /\ exists counts,
       Species_allele_counts self 0 = Ok counts
       /\ py_sum (dict_values counts) = 10.
Proof.
  intros self.
  split; [exact sample_pool|]. split; [exact sample_keys_distinct|].
  split; [exact Nat.lt_0_1|].
  exact (Species_allele_counts_total 1 self 0 sample_pool
           sample_keys_distinct Nat.lt_0_1).
Defined.

Lemma Species_allele_counts_locus_witness :
  let self := [([[1; 1]; [2; 3]], 2); ([[1; 2]; [3; 3]], 1)] in
  Forall (fun g : Genome => length g = 2%nat) (dict_keys self)
  /\ Species_allele_counts self 2 = Raise IndexError
  /\ Species_allele_counts self (-3) = Raise IndexError
  /\ Species_allele_counts self (-1) = Species_allele_counts self 1.
Proof.
  intros self.
  assert (HL : Forall (fun g : Genome => length g = 2%nat) (dict_keys self))
    by (repeat constructor).
  assert (Hne : self <> []) by discriminate.
  destruct (Species_allele_counts_locus 2 self 2 HL) as (_ & Hhigh & _).
  destruct (Species_allele_counts_locus 2 self (-3) HL) as (_ & Hlow & _).
  destruct (Species_allele_counts_locus 2 self (-1) HL) as (_ & _ & Hneg).
  split; [exact HL|]. split; [apply Hhigh; [exact Hne|right; simpl; lia]|].
  split; [apply Hlow; [exact Hne|left; simpl; lia]|].
  apply Hneg. simpl. lia.
Defined.
